(** * funcy-go, package [monad]: futures and safe lookups

    A shallow embedding of [monad_future.go] and [safe.go].

    - [GoBase]: the Go values the package manipulates (errors, zero values,
      slices).
    - [Safe]: [getFromMap] and [parseNumber] of [safe.go].
    - [FutureCell]: one [Future] struct with the goroutine [NewFuture]
      spawns for it and any number of goroutines calling [Get] and
      [GetWithTimeout] on it, as an interleaving step machine.
    - [Async]: the combinators [Map], [FlatMap], [Sequence], [Successful]
      and [Failed] over logical time. *)

From Stdlib Require Import ZArith Ascii String.
From stdpp Require Import base tactics option list strings gmap.

Local Open Scope Z_scope.

(** ** Go values *)

Module GoBase.

(** [errors.New] and [fmt.Errorf] return a pointer to a struct that holds
    the message; [==] on two [error] interface values compares the
    pointers.  [addr] is that pointer, [msg] what [Error()] returns. *)
Record errorString : Type := ErrorString { addr : nat; msg : string }.

(** The interface type [error]; [None] is Go's [nil]. *)
Definition error : Type := option errorString.
Definition nil : error := None.

#[global] Instance errorString_eq_dec : EqDecision errorString.
Proof. solve_decision. Defined.

(** [err != nil] *)
Definition is_err (e : error) : bool :=
  match e with Some _ => true | None => false end.

(** The zero value of a type: what [*new(T)] evaluates to. *)
Class Zero (T : Type) : Type := zero : T.
#[global] Hint Mode Zero ! : typeclass_instances.

#[global] Instance Zero_int : Zero Z := 0.
#[global] Instance Zero_string : Zero string := EmptyString.
#[global] Instance Zero_bool : Zero bool := false.
#[global] Instance Zero_error : Zero error := nil.
(** pointers: [*T] is [nil] or an address holding a [T] *)
#[global] Instance Zero_pointer {T} : Zero (option T) := None.

(** A slice [[]T]: the [nil] slice, or a backing array.  [make([]T, 0)]
    and [nil] both have length 0 but only the second compares equal to
    [nil]. *)
Inductive slice (T : Type) : Type :=
| nil_slice : slice T
| mk_slice (elems : list T) : slice T.
Arguments nil_slice {T}.
Arguments mk_slice {T} elems.

#[global] Instance Zero_slice {T} : Zero (slice T) := nil_slice.

Definition elems_of {T} (s : slice T) : list T :=
  match s with nil_slice => [] | mk_slice l => l end.

(** [len(s)] *)
Definition len {T} (s : slice T) : nat := length (elems_of s).

(** [make([]T, n)]: [n] zero values *)
Definition make {T} `{Zero T} (n : nat) : slice T := mk_slice (replicate n zero).

End GoBase.
Export GoBase.

(** ** safe.go *)

Module Safe.

(** Modelled from the spec: the optional-value type [Maybe] with its
    constructors [Just] and [Nothing], which [safe.go] returns; its
    declaration is not among the sources.  The spec calls it a simple
    optional-value wrapper, so it is a value that is present or absent. *)
Inductive Maybe (T : Type) : Type :=
| Just (v : T) : Maybe T
| Nothing : Maybe T.
Arguments Just {T} v.
Arguments Nothing {T}.

Section GetFromMap.
Context {K : Type} `{Countable K} {V : Type}.

(** safe.go 6-11.  A Go map is a reference: the caller would see any
    write, so the model hands the map back next to the result.
    [m[key]] with the two-value form never panics, also on a nil map. *)
Definition getFromMap (m : gmap K V) (key : K) : gmap K V * Maybe V :=
  match m !! key with
  | Some value => (m, Just value)
  | None => (m, Nothing)
  end.
End GetFromMap.

Section ParseNumber.
(** [strconv.Atoi] is the standard library's; [parseNumber] only looks
    at whether the error it returns is nil. *)
Variable Atoi : string -> Z * error.

(** safe.go 13-18 *)
Definition parseNumber (s : string) : Maybe Z :=
  let '(num, err) := Atoi s in
  if is_err err then Nothing else Just num.
End ParseNumber.

(** safe.go 21-26.  A [*A] is [nil] or the address of an [A]; the result
    holds a copy of the pointee, so only the pointee is kept here. *)
Definition fromNullable {T} (ptr : option T) : Maybe T :=
  match ptr with
  | None => Nothing
  | Some pointee => Just pointee
  end.

(** *** A model of [strconv.Atoi] to run [parseNumber] on

    Base 10, an optional sign, at least one digit, nothing else; the
    value has to fit Go's 64-bit [int].  On a syntax error Go returns 0,
    on a range error the nearest bound, in both cases with a non-nil
    error. *)
Definition digit_of (c : Ascii.ascii) : option Z :=
  let n := Z.of_N (Ascii.N_of_ascii c) in
  if (48 <=? n) && (n <=? 57) then Some (n - 48) else None.

Fixpoint digits (s : string) (acc : Z) : option Z :=
  match s with
  | EmptyString => Some acc
  | String c rest =>
      match digit_of c with
      | Some d => digits rest (10 * acc + d)
      | None => None
      end
  end.

Definition unsigned_digits (s : string) : option Z :=
  match s with
  | EmptyString => None
  | _ => digits s 0
  end.

Definition max_int : Z := 2 ^ 63 - 1.
Definition min_int : Z := - 2 ^ 63.

Definition syntax_error (s : string) : error :=
  Some (ErrorString 0 ("strconv.Atoi: parsing " ++ s ++ ": invalid syntax")).
Definition range_error (s : string) : error :=
  Some (ErrorString 0 ("strconv.Atoi: parsing " ++ s ++ ": value out of range")).

Definition strconv_Atoi (s : string) : Z * error :=
  let '(neg, body) :=
    match s with
    | String "-"%char rest => (true, rest)
    | String "+"%char rest => (false, rest)
    | _ => (false, s)
    end in
  match unsigned_digits body with
  | None => (0, syntax_error s)
  | Some n =>
      let v := if neg then - n else n in
      if v <? min_int then (min_int, range_error s)
      else if max_int <? v then (max_int, range_error s)
      else (v, nil)
  end.

End Safe.

(** ** monad_future.go, one handle: the struct, its goroutine, its callers *)

Module FutureCell.

(** [sync.RWMutex]: held by one writer, or by any number of readers. *)
Record RWMutex : Type := { writer : bool; readers : nat }.

(** A [chan struct{}] on which nobody ever sends: all that happens to it
    is [close]. *)
Inductive chan : Type := Open | Closed.

Definition is_closed (c : chan) : bool :=
  match c with Closed => true | Open => false end.

(** The exported methods a holder of the handle can call. *)
Inductive call : Type := Get | GetWithTimeout.

(** Where the goroutine of [NewFuture] (lines 22-30) stands. *)
Inductive wpc : Type :=
| W_compute      (* 23: value, err := compute() *)
| W_lock         (* 24: f.mutex.Lock() *)
| W_set_value    (* 25: f.value = value *)
| W_set_err      (* 26: f.err = err *)
| W_set_done     (* 27: f.done = true *)
| W_unlock       (* 28: f.mutex.Unlock() *)
| W_close        (* 29: close(f.waitChan) *)
| W_exit.

(** Where a caller stands, in [Get] (74-79) or [GetWithTimeout] (85-94).
    The deferred [RUnlock] runs after the operands of [return] have been
    read and before the function returns. *)
Inductive pc : Type :=
| Idle                (* between two calls *)
| Get_recv            (* 75: <-f.waitChan *)
| Get_rlock           (* 76: f.mutex.RLock() *)
| Get_load_value      (* 78: f.value *)
| Get_load_err        (* 78: f.err *)
| Get_runlock         (* 77: deferred f.mutex.RUnlock() *)
| Get_return          (* 78: return *)
| GWT_select          (* 86: select *)
| GWT_rlock           (* 88 *)
| GWT_load_value      (* 90 *)
| GWT_load_err        (* 90 *)
| GWT_runlock         (* 89: deferred *)
| GWT_return          (* 90: return *)
| GWT_errorf          (* 92: *new(A), fmt.Errorf(...) *)
| GWT_return_timeout. (* 92: return *)

Definition entry (k : call) : pc :=
  match k with Get => Get_recv | GetWithTimeout => GWT_select end.

(** The message of line 92. *)
Definition timeout_msg : string := "timeout waiting for future".

Section Cell.
Context {A : Type} `{Zero A}.

(** The struct, lines 9-15. *)
Record Future : Type := {
  value : A;
  err : error;
  done : bool;
  mutex : RWMutex;
  waitChan : chan
}.

(** 19-21: [&Future[A]{waitChan: make(chan struct{})}] *)
Definition new_Future : Future :=
  {| value := zero; err := nil; done := false;
     mutex := {| writer := false; readers := 0 |}; waitChan := Open |}.

Definition set_value (v : A) (f : Future) : Future :=
  {| value := v; err := err f; done := done f; mutex := mutex f; waitChan := waitChan f |}.
Definition set_err (e : error) (f : Future) : Future :=
  {| value := value f; err := e; done := done f; mutex := mutex f; waitChan := waitChan f |}.
Definition set_done (b : bool) (f : Future) : Future :=
  {| value := value f; err := err f; done := b; mutex := mutex f; waitChan := waitChan f |}.
Definition set_mutex (m : RWMutex) (f : Future) : Future :=
  {| value := value f; err := err f; done := done f; mutex := m; waitChan := waitChan f |}.
Definition set_waitChan (c : chan) (f : Future) : Future :=
  {| value := value f; err := err f; done := done f; mutex := mutex f; waitChan := c |}.

(** The goroutine of [NewFuture]: its place and its locals [value], [err]. *)
Record worker : Type := { w_pc : wpc; w_value : A; w_err : error }.

(** What a call handed back to its caller. *)
Record answer : Type := { from : call; timed_out : bool; got : A * error }.

(** A goroutine that holds the handle: the calls it still has to make,
    where it is in the current one, the two operands of [return], and
    what its calls returned so far. *)
Record caller : Type := {
  c_pc : pc;
  c_todo : list call;
  c_value : A;
  c_err : error;
  c_returned : list answer
}.

Definition at_pc (p : pc) (c : caller) : caller :=
  {| c_pc := p; c_todo := c_todo c; c_value := c_value c; c_err := c_err c;
     c_returned := c_returned c |}.

Definition caller_of (todo : list call) : caller :=
  {| c_pc := Idle; c_todo := todo; c_value := zero; c_err := nil; c_returned := [] |}.

(** The whole system around one handle.  [heap_next] is the next
    address the allocator hands out. *)
Record config : Type := {
  cell : Future;
  go : worker;
  callers : list caller;
  heap_next : nat
}.

(** What the computation given to [NewFuture] does when run: return a
    pair, or never return. *)
Variable compute : option (A * error).

(** One step of the spawned goroutine; [None] when it cannot move: it is
    blocked, or has exited, or the runtime would stop the program ([Unlock]
    of an unlocked mutex, [close] of a closed channel). *)
Definition worker_step (f : Future) (w : worker) : option (Future * worker) :=
  let goto p := {| w_pc := p; w_value := w_value w; w_err := w_err w |} in
  match w_pc w with
  | W_compute =>
      match compute with
      | Some (v, e) => Some (f, {| w_pc := W_lock; w_value := v; w_err := e |})
      | None => None
      end
  | W_lock =>
      if writer (mutex f) || negb (Nat.eqb (readers (mutex f)) 0) then None
      else Some (set_mutex {| writer := true; readers := 0 |} f, goto W_set_value)
  | W_set_value => Some (set_value (w_value w) f, goto W_set_err)
  | W_set_err => Some (set_err (w_err w) f, goto W_set_done)
  | W_set_done => Some (set_done true f, goto W_unlock)
  | W_unlock =>
      if writer (mutex f)
      then Some (set_mutex {| writer := false; readers := readers (mutex f) |} f,
                 goto W_close)
      else None
  | W_close =>
      match waitChan f with
      | Open => Some (set_waitChan Closed f, goto W_exit)
      | Closed => None
      end
  | W_exit => None
  end.

Definition rlock (f : Future) : option Future :=
  if writer (mutex f) then None
  else Some (set_mutex {| writer := false; readers := S (readers (mutex f)) |} f).

(** [RUnlock] with no reader inside is a fatal error. *)
Definition runlock (f : Future) : option Future :=
  match readers (mutex f) with
  | O => None
  | S n => Some (set_mutex {| writer := writer (mutex f); readers := n |} f)
  end.

(** One step of a caller; [None] when it is blocked or has nothing left
    to do. *)
Definition caller_step (f : Future) (hp : nat) (c : caller)
  : option (Future * nat * caller) :=
  let ret (k : call) (t : bool) :=
    {| c_pc := Idle; c_todo := c_todo c; c_value := c_value c; c_err := c_err c;
       c_returned := c_returned c
                     ++ [{| from := k; timed_out := t; got := (c_value c, c_err c) |}] |} in
  let load_value p :=
    {| c_pc := p; c_todo := c_todo c; c_value := value f; c_err := c_err c;
       c_returned := c_returned c |} in
  let load_err p :=
    {| c_pc := p; c_todo := c_todo c; c_value := c_value c; c_err := err f;
       c_returned := c_returned c |} in
  match c_pc c with
  | Idle =>
      match c_todo c with
      | [] => None
      | k :: rest =>
          Some (f, hp, {| c_pc := entry k; c_todo := rest; c_value := c_value c;
                          c_err := c_err c; c_returned := c_returned c |})
      end
  | Get_recv => if is_closed (waitChan f) then Some (f, hp, at_pc Get_rlock c) else None
  | Get_rlock =>
      match rlock f with
      | Some f' => Some (f', hp, at_pc Get_load_value c)
      | None => None
      end
  | Get_load_value => Some (f, hp, load_value Get_load_err)
  | Get_load_err => Some (f, hp, load_err Get_runlock)
  | Get_runlock =>
      match runlock f with
      | Some f' => Some (f', hp, at_pc Get_return c)
      | None => None
      end
  | Get_return => Some (f, hp, ret Get false)
  | GWT_select => if is_closed (waitChan f) then Some (f, hp, at_pc GWT_rlock c) else None
  | GWT_rlock =>
      match rlock f with
      | Some f' => Some (f', hp, at_pc GWT_load_value c)
      | None => None
      end
  | GWT_load_value => Some (f, hp, load_value GWT_load_err)
  | GWT_load_err => Some (f, hp, load_err GWT_runlock)
  | GWT_runlock =>
      match runlock f with
      | Some f' => Some (f', hp, at_pc GWT_return c)
      | None => None
      end
  | GWT_return => Some (f, hp, ret GetWithTimeout false)
  | GWT_errorf =>
      Some (f, S hp,
            {| c_pc := GWT_return_timeout; c_todo := c_todo c; c_value := zero;
               c_err := Some (ErrorString hp timeout_msg);
               c_returned := c_returned c |})
  | GWT_return_timeout => Some (f, hp, ret GetWithTimeout true)
  end.

(** The channel of [time.After] delivers: a caller waiting in the
    [select] takes the second case. *)
Definition caller_timer (c : caller) : option caller :=
  match c_pc c with
  | GWT_select => Some (at_pc GWT_errorf c)
  | _ => None
  end.

(** What the scheduler can pick. *)
Inductive event : Type :=
| Worker
| Caller (i : nat)
| Timer (i : nat).

Definition step (ev : event) (s : config) : option config :=
  match ev with
  | Worker =>
      '(f, w) ← worker_step (cell s) (go s);
      Some {| cell := f; go := w; callers := callers s; heap_next := heap_next s |}
  | Caller i =>
      c ← callers s !! i;
      '(f, hp, c') ← caller_step (cell s) (heap_next s) c;
      Some {| cell := f; go := go s; callers := <[i := c']> (callers s); heap_next := hp |}
  | Timer i =>
      c ← callers s !! i;
      c' ← caller_timer c;
      Some {| cell := cell s; go := go s; callers := <[i := c']> (callers s);
              heap_next := heap_next s |}
  end.

(** A pick that cannot move leaves the system as it is. *)
Definition next (ev : event) (s : config) : config := default s (step ev s).

Definition run (evs : list event) (s : config) : config := foldl (flip next) s evs.

(** All configurations a schedule goes through, the first one included. *)
Fixpoint trace (evs : list event) (s : config) : list config :=
  match evs with
  | [] => [s]
  | ev :: rest => s :: trace rest (next ev s)
  end.

(** [NewFuture(compute)] has returned (18-33): the struct is allocated,
    the goroutine is spawned and has not moved yet.  [todos] are the
    goroutines that hold the handle, each with the calls it will make. *)
Definition NewFuture (hp : nat) (todos : list (list call)) : config :=
  {| cell := new_Future;
     go := {| w_pc := W_compute; w_value := zero; w_err := nil |};
     callers := caller_of <$> todos;
     heap_next := hp |}.

End Cell.

Arguments Future A : clear implicits.
Arguments worker A : clear implicits.
Arguments caller A : clear implicits.
Arguments answer A : clear implicits.
Arguments config A : clear implicits.

End FutureCell.

(** ** monad_future.go, the combinators: handles over logical time *)

Module Async.
Import FutureCell.
Local Open Scope nat_scope.

(** Logical time, in ticks. *)
Definition time : Type := nat.

(** What a goroutine carries along: its clock and how many times it has
    called a function handed to it by the user. *)
Record world : Type := { now : time; calls : nat }.

(** A piece of Go code that may block: run from a world it returns a
    result and the world it returns in, or never returns. *)
Definition Task (R : Type) : Type := world → option (R * world).

#[global] Instance Task_ret : MRet Task := λ R (r : R) w, Some (r, w).
#[global] Instance Task_bind : MBind Task :=
  λ R S (k : R → Task S) (m : Task R) w,
    match m w with
    | Some (r, w') => k r w'
    | None => None
    end.

(** [time.Sleep(d)] *)
Definition Sleep (d : nat) : Task unit :=
  λ w, Some ((), {| now := now w + d; calls := calls w |}).

(** A computation that never returns, such as [select {}]. *)
Definition block {R} : Task R := λ _, None.

(** Calling a function the user passed in: counted, then run. *)
Definition invoke {X R} (fn : X → Task R) (x : X) : Task R :=
  λ w, fn x {| now := now w; calls := S (calls w) |}.

Section Handle.
Context {A : Type} `{Zero A}.

(** A [*Future[A]] as its holders see it: the struct of [FutureCell]
    together with the goroutine [NewFuture] spawned for it.  [outcome] is
    what [compute()] does in that goroutine: the pair it returns and the
    goroutine's world at that moment, or [None] when it never returns. *)
Record handle : Type := Handle { outcome : option ((A * error) * world) }.

(** The pair [compute()] returns, for the step machine of [FutureCell]. *)
Definition returns (f : handle) : option (A * error) := fst <$> outcome f.

(** The struct once its goroutine ran lines 24-29 on the pair [r]. *)
Definition settled (r : A * error) : Future A :=
  cell (run (Some r) (replicate 7 Worker) (FutureCell.NewFuture 0 [])).

(** The struct at time [t]; lines 24-29 take no logical time. *)
Definition cell_at (f : handle) (t : time) : Future A :=
  match outcome f with
  | Some (r, w) => if now w <=? t then settled r else new_Future
  | None => new_Future
  end.

(** When [waitChan] is closed, if ever. *)
Definition closed_at (f : handle) : option time := (λ rw, now rw.2) <$> outcome f.

(** 18-33: the goroutine starts now, with nothing called yet; the caller
    goes on at once. *)
Definition NewFuture (compute : Task (A * error)) : Task handle :=
  λ w, Some ({| outcome := compute {| now := now w; calls := 0 |} |}, w).

(** 74-79: block until [waitChan] is closed, then read [value] and [err]. *)
Definition Get (f : handle) : Task (A * error) :=
  λ w, match closed_at f with
       | Some tc =>
           let t := now w `max` tc in
           let c := cell_at f t in
           Some ((value c, err c), {| now := t; calls := calls w |})
       | None => None
       end.

(** [n] calls of [f.Get()] in a row, with what each returned. *)
Fixpoint repeat_Get (n : nat) (f : handle) : Task (list (A * error)) :=
  match n with
  | 0 => mret []
  | S n => r ← Get f; rs ← repeat_Get n f; mret (r :: rs)
  end.

(** 100-104 *)
Definition Successful (value : A) : Task handle :=
  NewFuture (mret (value, nil)).

(** 110-114 *)
Definition Failed (err : error) : Task handle :=
  NewFuture (mret (zero, err)).

(** 122-130: the loop of [Sequence] from index [i] on. *)
Fixpoint Sequence_loop (i : nat) (futures : list handle) (results : list A)
  : Task (slice A * error) :=
  match futures with
  | [] => mret (mk_slice results, nil)
  | future :: rest =>
      '(value, err) ← Get future;
      if is_err err then mret (nil_slice, err)
      else Sequence_loop (S i) rest (<[i := value]> results)
  end.

End Handle.
Arguments handle A : clear implicits.

(** 42-50 *)
Definition Map {A B} `{Zero A} `{Zero B} (f : handle A) (fn : A → Task B)
  : Task (handle B) :=
  NewFuture (
    '(value, err) ← Get f;
    if is_err err then mret (zero, err)
    else b ← invoke fn value; mret (b, nil)).

(** 56-64 *)
Definition FlatMap {A B} `{Zero A} `{Zero B} (f : handle A) (fn : A → Task (handle B))
  : Task (handle B) :=
  NewFuture (
    '(value, err) ← Get f;
    if is_err err then mret (zero, err)
    else g ← invoke fn value; Get g).

(** 120-132 *)
Definition Sequence {A} `{Zero A} (futures : list (handle A)) : Task (handle (slice A)) :=
  NewFuture (
    Sequence_loop 0 futures (elems_of (make (length futures)))).

(** [f] was waited for before [out] completed: [out] completes, if at all,
    no earlier than [f]. *)
Definition awaited_by {A B} (f : handle A) (out : handle B) : Prop :=
  match outcome out with
  | Some (_, wo) =>
      match outcome f with
      | Some (_, wf) => now wf ≤ now wo
      | None => False
      end
  | None => True
  end.

(** The time by which a caller that starts at [t0] has waited for each
    handle of [fs] in turn. *)
Definition latest {A} (t0 : time) (fs : list (handle A)) : time :=
  foldl (λ t f, t `max` default 0 (closed_at f)) t0 fs.

(** [results] after [results[i] = v] for the values [vs] from index [i] on. *)
Fixpoint fill {A} (i : nat) (vs : list A) (results : list A) : list A :=
  match vs with
  | [] => results
  | v :: vs => fill (S i) vs (<[i := v]> results)
  end.

End Async.

(** ** [GetWithTimeout] over logical time; batches of resolved handles *)

Module AsyncExt.
Import FutureCell Async.
Local Open Scope nat_scope.

Section Handle.
Context {A : Type} `{Zero A}.

(** 85-94 with the duration kept.  The first case of the [select] is
    ready from the moment [waitChan] is closed, the second from [timeout]
    after the call (at once for a duration that is zero or negative); the
    [select] takes the case that is ready first, and either of them, as
    [tie] says, when both become ready at the same tick.  [fresh] is the
    address the allocator gives the error of line 92. *)
Definition GetWithTimeout (f : handle A) (timeout : Z) (fresh : nat) (tie : bool)
  : Task (A * error) :=
  λ w,
    let deadline := now w + Z.to_nat timeout in
    let expired :=
      Some ((zero, Some (ErrorString fresh timeout_msg)),
            {| now := deadline; calls := calls w |}) in
    match closed_at f with
    | Some tc =>
        let ready := now w `max` tc in
        if (ready <? deadline) || ((ready =? deadline) && tie)
        then
          let c := cell_at f ready in
          Some ((value c, err c), {| now := ready; calls := calls w |})
        else expired
    | None => expired
    end.

(** [mapM Successful]: one resolved handle per value. *)
Fixpoint Successfuls (vs : list A) : Task (list (handle A)) :=
  match vs with
  | [] => mret []
  | v :: vs => f ← Successful v; fs ← Successfuls vs; mret (f :: fs)
  end.

End Handle.
End AsyncExt.

(** ** The invariant of one handle, and measures on its runs *)

Module CellInv.
Import FutureCell.
Local Open Scope nat_scope.

Section Defs.
Context {A : Type} `{Zero A}.
Variable compute : option (A * error).
(** the allocator's position when [NewFuture] was called *)
Variable hp0 : nat.

#[local] Abbreviation config := (config A).
#[local] Abbreviation caller := (caller A).

Definition stage (p : wpc) : nat :=
  match p with
  | W_compute => 0 | W_lock => 1 | W_set_value => 2 | W_set_err => 3
  | W_set_done => 4 | W_unlock => 5 | W_close => 6 | W_exit => 7
  end.

(** The struct as a function of where its goroutine stands. *)
Definition worker_inv (s : config) : Prop :=
  let n := stage (w_pc (go s)) in
  let f := cell s in
  value f = (if 3 <=? n then w_value (go s) else zero)
  ∧ err f = (if 4 <=? n then w_err (go s) else nil)
  ∧ done f = (5 <=? n)
  ∧ writer (mutex f) = (2 <=? n) && (n <=? 5)
  ∧ is_closed (waitChan f) = (7 <=? n)
  ∧ (1 ≤ n → compute = Some (w_value (go s), w_err (go s)))
  ∧ (n < 7 → readers (mutex f) = 0).

(** The pair a timed-out [GetWithTimeout] returns: the zero value and
    an error allocated after [NewFuture], below the allocator. *)
Definition timeout_result (hp : nat) (r : A * error) : Prop :=
  r.1 = zero ∧ ∃ n, hp0 ≤ n < hp ∧ r.2 = Some (ErrorString n timeout_msg).

Definition answer_ok (hp : nat) (ch : chan) (a : answer A) : Prop :=
  if timed_out a then from a = GetWithTimeout ∧ timeout_result hp (got a)
  else compute = Some (got a) ∧ ch = Closed.

Definition pc_inv (s : config) (c : caller) : Prop :=
  let f := cell s in
  match c_pc c with
  | Get_rlock | Get_load_value | GWT_rlock | GWT_load_value =>
      waitChan f = Closed
  | Get_load_err | GWT_load_err =>
      waitChan f = Closed ∧ c_value c = value f
  | Get_runlock | Get_return | GWT_runlock | GWT_return =>
      waitChan f = Closed ∧ c_value c = value f ∧ c_err c = err f
  | GWT_return_timeout => timeout_result (heap_next s) (c_value c, c_err c)
  | Idle | Get_recv | GWT_select | GWT_errorf => True
  end.

Definition caller_inv (s : config) (c : caller) : Prop :=
  pc_inv s c ∧ Forall (answer_ok (heap_next s) (waitChan (cell s))) (c_returned c).

(** Callers between their [RLock] and their [RUnlock]. *)
Definition holds_rlock (p : pc) : bool :=
  match p with
  | Get_load_value | Get_load_err | Get_runlock
  | GWT_load_value | GWT_load_err | GWT_runlock => true
  | _ => false
  end.

Definition holding (c : caller) : nat := if holds_rlock (c_pc c) then 1 else 0.

Definition held (l : list caller) : nat := sum_list_with holding l.

Definition Inv (s : config) : Prop :=
  worker_inv s ∧ Forall (caller_inv s) (callers s) ∧ hp0 ≤ heap_next s
  ∧ readers (mutex (cell s)) = held (callers s).

(** How often a sequence of flags goes from [false] to [true], and back. *)
Fixpoint rises (l : list bool) : nat :=
  match l with
  | b1 :: (b2 :: _) as rest => (if negb b1 && b2 then 1 else 0) + rises rest
  | _ => 0
  end.

Fixpoint falls (l : list bool) : nat :=
  match l with
  | b1 :: (b2 :: _) as rest => (if b1 && negb b2 then 1 else 0) + falls rest
  | _ => 0
  end.

Definition done_flags (tr : list config) : list bool := (λ s, done (cell s)) <$> tr.

(** The call a caller is in, and all calls it has not returned from. *)
Definition current (p : pc) : list call :=
  match p with
  | Idle => []
  | Get_recv | Get_rlock | Get_load_value | Get_load_err | Get_runlock | Get_return =>
      [Get]
  | _ => [GetWithTimeout]
  end.

Definition pending (c : caller) : list call := current (c_pc c) ++ c_todo c.

Definition history (c : caller) : list call := from <$> c_returned c.

Definition finished (c : caller) : Prop := c_pc c = Idle ∧ c_todo c = [].

(** Steps left in the current call once the channel is closed. *)
Definition fuel (p : pc) : nat :=
  match p with
  | Idle => 0
  | Get_recv | GWT_select => 6
  | Get_rlock | GWT_rlock => 5
  | Get_load_value | GWT_load_value => 4
  | Get_load_err | GWT_load_err => 3
  | Get_runlock | GWT_runlock | GWT_errorf => 2
  | Get_return | GWT_return | GWT_return_timeout => 1
  end.

Definition measure (c : caller) : nat := fuel (c_pc c) + 7 * length (c_todo c).

(** All calls of a caller, returned or not: no step changes that. *)
Definition script (c : caller) : list call := history c ++ pending c.



(** The addresses of the errors a caller got from the second case of the
    [select]: the ones it has returned, then the one it is about to. *)
Definition answer_addr (a : answer A) : list nat :=
  if timed_out a then
    match (got a).2 with Some e => [addr e] | None => [] end
  else [].

Definition timeout_addrs (c : caller) : list nat :=
  (c_returned c ≫= answer_addr)
  ++ match c_pc c, c_err c with
     | GWT_return_timeout, Some e => [addr e]
     | _, _ => []
     end.

Definition all_timeout_addrs (s : config) : list nat := callers s ≫= timeout_addrs.

(** All timeout errors handed out so far are pairwise different and
    below the allocator. *)
Definition fresh_inv (s : config) : Prop :=
  NoDup (all_timeout_addrs s)
  ∧ Forall (λ n, n < heap_next s) (all_timeout_addrs s).

End Defs.
End CellInv.

(** ** Theorems: safe.go *)

Module SafeFacts.
Import Safe.

Example parseNumber_42 : parseNumber strconv_Atoi "42" = Just 42.
Proof. reflexivity. Qed.

Example parseNumber_neg : parseNumber strconv_Atoi "-7" = Just (-7).
Proof. reflexivity. Qed.

Example parseNumber_junk : parseNumber strconv_Atoi "4x2" = Nothing.
Proof. reflexivity. Qed.

Example parseNumber_empty : parseNumber strconv_Atoi "" = Nothing.
Proof. reflexivity. Qed.

Example parseNumber_overflow :
  parseNumber strconv_Atoi "9223372036854775808" = Nothing.
Proof. reflexivity. Qed.

Example getFromMap_hit :
  getFromMap (<[2%nat := "b"]> (<[1%nat := "a"]> ∅) : gmap nat string) 2%nat
  = (<[2%nat := "b"]> (<[1%nat := "a"]> ∅), Just "b").
Proof. reflexivity. Qed.

Example getFromMap_miss :
  (getFromMap (<[1%nat := "a"]> ∅ : gmap nat string) 5%nat).2 = Nothing.
Proof. reflexivity. Qed.


(** C10: [parseNumber s] is [Just n] exactly when [Atoi] returns [n] with
    a nil error, and [Nothing] exactly when [Atoi] returns a non-nil
    error; nothing of that error reaches the result (two runs that differ
    only in the error [Atoi] reports give the same result). *)
Theorem parseNumber_spec (Atoi : string -> Z * error) (s : string) :
  (∀ n, parseNumber Atoi s = Just n ↔ Atoi s = (n, nil))
  ∧ (parseNumber Atoi s = Nothing ↔ (Atoi s).2 ≠ nil)
  ∧ (∀ n e e', parseNumber (λ _, (n, Some e)) s
               = parseNumber (λ _, (n, Some e')) s).
Proof.
  unfold parseNumber, nil.
  destruct (Atoi s) as [num [e|]]; simpl;
    repeat split; intros; congruence.
Qed.

End SafeFacts.

(** ** Theorems: one handle *)

Module FutureCellFacts.
Import FutureCell CellInv.
Local Open Scope nat_scope.

Section Invariant.
Context {A : Type} `{Zero A}.
Variable compute : option (A * error).
(** the allocator's position when [NewFuture] was called *)
Variable hp0 : nat.

#[local] Abbreviation config := (config A).
#[local] Abbreviation caller := (caller A).
#[local] Abbreviation step := (step compute).
#[local] Abbreviation next := (next compute).
#[local] Abbreviation run := (run compute).
#[local] Abbreviation trace := (trace compute).
#[local] Abbreviation worker_inv := (CellInv.worker_inv compute).
#[local] Abbreviation timeout_result := (CellInv.timeout_result hp0).
#[local] Abbreviation answer_ok := (CellInv.answer_ok compute hp0).
#[local] Abbreviation pc_inv := (CellInv.pc_inv hp0).
#[local] Abbreviation caller_inv := (CellInv.caller_inv compute hp0).
#[local] Abbreviation Inv := (CellInv.Inv compute hp0).

Lemma held_insert (l : list caller) i c c' :
  l !! i = Some c → held (<[i := c']> l) + holding c = held l + holding c'.
Proof.
  revert i. induction l as [|x l IH]; intros [|i] Hi; simplify_eq/=.
  - unfold held. simpl. lia.
  - specialize (IH i Hi). unfold held in *. simpl. lia.
Qed.

Lemma held_ge (l : list caller) i c : l !! i = Some c → holding c ≤ held l.
Proof.
  revert i. induction l as [|x l IH]; intros [|i] Hi; simplify_eq/=.
  - unfold held. simpl. lia.
  - specialize (IH i Hi). unfold held in *. simpl. lia.
Qed.

Lemma timeout_result_mono hp hp' (r : A * error) :
  hp ≤ hp' → timeout_result hp r → timeout_result hp' r.
Proof. intros Hle [Hz (n & Hn & He)]. split; [done|]. exists n. split; [lia|done]. Qed.

Lemma answer_ok_mono hp hp' ch (a : answer A) :
  hp ≤ hp' → answer_ok hp ch a → answer_ok hp' ch a.
Proof.
  unfold CellInv.answer_ok. intros Hle. destruct (timed_out a); [|done].
  intros [? ?]. eauto using timeout_result_mono.
Qed.

(** Another goroutine moved: a caller's invariant only looks at the
    channel, the two data fields and the allocator. *)
Lemma caller_inv_frame s s' c :
  waitChan (cell s') = waitChan (cell s) →
  value (cell s') = value (cell s) →
  err (cell s') = err (cell s) →
  heap_next s ≤ heap_next s' →
  caller_inv s c → caller_inv s' c.
Proof.
  intros Hw Hv He Hle [Hpc Hret]. split.
  - unfold CellInv.pc_inv in *. rewrite Hw, Hv, He.
    destruct (c_pc c); eauto using timeout_result_mono.
  - rewrite Hw. eapply Forall_impl; [exact Hret|]. eauto using answer_ok_mono.
Qed.

(** While the channel is open no caller is past its receive, so nothing
    it knows depends on the struct. *)
Lemma caller_inv_open s s' c :
  waitChan (cell s) = Open →
  heap_next s ≤ heap_next s' →
  caller_inv s c → caller_inv s' c.
Proof.
  intros Ho Hle [Hpc Hret]. split.
  - unfold CellInv.pc_inv in *. rewrite Ho in Hpc.
    destruct (c_pc c); try done; try (by destruct Hpc);
      eauto using timeout_result_mono.
  - rewrite Ho in Hret. eapply Forall_impl; [exact Hret|].
    intros a. unfold CellInv.answer_ok. destruct (timed_out a).
    + intros [? ?]. eauto using timeout_result_mono.
    + by intros [_ ?].
Qed.

Lemma Inv_init todos : Inv (NewFuture hp0 todos).
Proof.
  split; [|split; [|split]]; simpl; [| |lia|].
  - repeat split; simpl; try done; lia.
  - apply Forall_fmap, Forall_true. intros l. split; simpl; [done|constructor].
  - induction todos as [|todo todos IH]; [done|]. by rewrite fmap_cons.
Qed.

Lemma worker_step_inv s f w :
  worker_step compute (cell s) (go s) = Some (f, w) →
  Inv s →
  Inv {| cell := f; go := w; callers := callers s; heap_next := heap_next s |}.
Proof.
  intros Hst (Hw & Hc & Hhp & Hrs).
  assert (Hopen : waitChan (cell s) = Open).
  { destruct Hw as (_ & _ & _ & _ & Hcl & _).
    unfold worker_step in Hst.
    destruct (w_pc (go s)); simpl in *; try done;
      destruct (waitChan (cell s)); done. }
  split; [|split; [|split]]; simpl; [| |done|].
  3:{ rewrite <-Hrs. destruct Hw as (_ & _ & _ & _ & _ & _ & Hrd).
      unfold worker_step in Hst.
      destruct (w_pc (go s)); simpl in *; repeat case_match; simplify_eq/=;
        try done.
      symmetry. apply Hrd. lia. }
  - destruct Hw as (Hv & He & Hd & Hwr & Hcl & Hcomp & Hrd).
    unfold worker_step in Hst. unfold CellInv.worker_inv. simpl.
    destruct (w_pc (go s)) eqn:Hpc; simpl in *;
      repeat case_match; simplify_eq; simpl in *;
      repeat split; try done; try lia; eauto with lia.
    all: try (rewrite Hrd by lia; done).
    all: try (intros; apply Hcomp; lia).
  - eapply Forall_impl; [exact Hc|]. intros c Hci.
    eapply caller_inv_open; eauto.
Qed.

Lemma caller_step_fields (f : Future A) hp c f' hp' c' :
  caller_step f hp c = Some (f', hp', c') →
  value f' = value f ∧ err f' = err f ∧ done f' = done f
  ∧ waitChan f' = waitChan f ∧ writer (mutex f') = writer (mutex f)
  ∧ hp ≤ hp'.
Proof.
  unfold caller_step, rlock, runlock. intros Hst.
  destruct (c_pc c); simpl in *; repeat case_match; simplify_eq/=;
    repeat split; try done; try lia.
Qed.

Lemma caller_step_readers (f : Future A) hp c f' hp' c' :
  caller_step f hp c = Some (f', hp', c') →
  readers (mutex f') + holding c = readers (mutex f) + holding c'.
Proof.
  unfold caller_step, rlock, runlock. intros Hst.
  destruct (c_pc c) eqn:Hp; simpl in Hst; repeat case_match; simplify_eq;
    unfold holding; rewrite Hp; simpl; try lia.
  match goal with |- context [entry ?k] => destruct k; simpl; lia end.
Qed.

Lemma caller_step_inv s i c f hp c' :
  callers s !! i = Some c →
  caller_step (cell s) (heap_next s) c = Some (f, hp, c') →
  Inv s →
  Inv {| cell := f; go := go s; callers := <[i := c']> (callers s); heap_next := hp |}.
Proof.
  intros Hi Hst (Hw & Hc & Hhp & Hrs).
  pose proof (caller_step_fields _ _ _ _ _ _ Hst) as (Hv & He & Hd & Hch & Hwr & Hle).
  pose proof (Forall_lookup_1 _ _ _ _ Hc Hi) as [Hpc Hret].
  split; [|split; [|split]]; simpl; [| |lia|].
  3:{ pose proof (caller_step_readers _ _ _ _ _ _ Hst).
      pose proof (held_insert (callers s) i c c' Hi). lia. }
  - destruct Hw as (Hv0 & He0 & Hd0 & Hwr0 & Hcl0 & Hcomp & Hrd).
    unfold CellInv.worker_inv; simpl. rewrite Hv, He, Hd, Hch, Hwr.
    repeat split; try done.
    intros Hn. specialize (Hrd Hn).
    assert (Hopen : is_closed (waitChan (cell s)) = false).
    { rewrite Hcl0. apply Nat.leb_gt. lia. }
    unfold CellInv.pc_inv in Hpc. unfold caller_step, rlock, runlock in Hst.
    destruct (c_pc c); simpl in *; repeat case_match; simplify_eq; simpl;
      try done; destruct_and?; try congruence;
      match goal with Hx : waitChan _ = Closed |- _ => rewrite Hx in Hopen; done end.
  - apply Forall_insert.
    + eapply Forall_impl; [exact Hc|]. intros c0 Hc0.
      eapply caller_inv_frame; [..|exact Hc0]; simpl; done.
    + destruct Hw as (Hv0 & He0 & Hd0 & Hwr0 & Hcl0 & Hcomp & Hrd).
      assert (Hcomp' : waitChan (cell s) = Closed →
                       compute = Some (value (cell s), err (cell s))).
      { intros Hx. rewrite Hx in Hcl0. cbn [is_closed] in Hcl0.
        symmetry in Hcl0. apply Nat.leb_le in Hcl0.
        rewrite Hv0, He0.
        replace (3 <=? stage (w_pc (go s))) with true by (symmetry; apply Nat.leb_le; lia).
        replace (4 <=? stage (w_pc (go s))) with true by (symmetry; apply Nat.leb_le; lia).
        apply Hcomp. lia. }
      assert (Hret' : Forall (answer_ok hp (waitChan (cell s))) (c_returned c)).
      { eapply Forall_impl; [exact Hret|]. eauto using answer_ok_mono. }
      unfold CellInv.pc_inv in Hpc. unfold caller_step, rlock, runlock in Hst.
      destruct (c_pc c) eqn:Hp; simpl in Hst; repeat case_match; simplify_eq;
        unfold CellInv.caller_inv, CellInv.pc_inv; simpl; rewrite ?Hch; destruct_and?;
        repeat split; try done; try (by destruct (waitChan (cell s)));
        try (apply Forall_app; split; [done|]; apply Forall_singleton;
             unfold CellInv.answer_ok; simpl).
      all: try (by (rewrite Hcomp' by done; repeat f_equal; done)).
      all: try (split; [done|]).
      all: try (eapply timeout_result_mono; [|eassumption]; lia).
      all: try (split; [done|]; exists (heap_next s); split; [lia|done]).
      all: try (exists (heap_next s); split; [lia|done]).
      all: try match goal with |- context [entry ?k] => by destruct k end.
      all: split; [|done]; rewrite Hcomp' by done; repeat f_equal; done.
Qed.

Lemma caller_timer_inv s i c c' :
  callers s !! i = Some c →
  caller_timer c = Some c' →
  Inv s →
  Inv {| cell := cell s; go := go s; callers := <[i := c']> (callers s);
         heap_next := heap_next s |}.
Proof.
  intros Hi Hst (Hw & Hc & Hhp & Hrs).
  pose proof (Forall_lookup_1 _ _ _ _ Hc Hi) as [Hpc Hret].
  split; [|split; [|split]]; simpl; [done| |done|].
  2:{ pose proof (held_insert (callers s) i c c' Hi) as Hh.
      unfold caller_timer in Hst. unfold holding in Hh.
      destruct (c_pc c) eqn:Hp; simplify_eq. simpl in Hh. lia. }
  apply Forall_insert.
  - eapply Forall_impl; [exact Hc|]. intros c0 Hc0.
    eapply caller_inv_frame; [..|exact Hc0]; simpl; done.
  - unfold caller_timer in Hst. destruct (c_pc c) eqn:Hp; simplify_eq.
    split; [|done]. unfold CellInv.pc_inv; simpl. done.
Qed.

Lemma step_inv ev s s' : step ev s = Some s' → Inv s → Inv s'.
Proof.
  destruct ev as [|i|i]; simpl; intros Hst HI.
  - destruct (worker_step compute (cell s) (go s)) as [[f w]|] eqn:E; simplify_eq/=.
    by apply worker_step_inv.
  - destruct (callers s !! i) as [c|] eqn:Ei; simplify_eq/=.
    destruct (caller_step (cell s) (heap_next s) c) as [[[f hp] c']|] eqn:E; simplify_eq/=.
    by eapply caller_step_inv.
  - destruct (callers s !! i) as [c|] eqn:Ei; simplify_eq/=.
    destruct (caller_timer c) as [c'|] eqn:E; simplify_eq/=.
    by eapply caller_timer_inv.
Qed.

Lemma next_inv ev s : Inv s → Inv (next ev s).
Proof.
  unfold FutureCell.next. destruct (step ev s) eqn:E; simpl; eauto using step_inv.
Qed.

Lemma run_inv evs s : Inv s → Inv (run evs s).
Proof.
  revert s. induction evs as [|ev evs IH]; simpl; intros s HI; [done|].
  apply IH, next_inv, HI.
Qed.

Lemma trace_inv evs s : Inv s → Forall Inv (trace evs s).
Proof.
  revert s. induction evs as [|ev evs IH]; simpl; intros s HI.
  - by constructor.
  - constructor; [done|]. apply IH, next_inv, HI.
Qed.

Lemma rises_cons2 b1 b2 l :
  rises (b1 :: b2 :: l) = (if negb b1 && b2 then 1 else 0) + rises (b2 :: l).
Proof. reflexivity. Qed.

Lemma falls_cons2 b1 b2 l :
  falls (b1 :: b2 :: l) = (if b1 && negb b2 then 1 else 0) + falls (b2 :: l).
Proof. reflexivity. Qed.

Lemma trace_head evs s : ∃ rest, trace evs s = s :: rest.
Proof. destruct evs; simpl; eauto. Qed.

(** Once [done] is set the three data fields stay as they are. *)
Lemma next_done_stable ev s :
  Inv s → done (cell s) = true →
  value (cell (next ev s)) = value (cell s)
  ∧ err (cell (next ev s)) = err (cell s)
  ∧ done (cell (next ev s)) = true.
Proof.
  intros (Hw & Hc & Hhp) Hd. unfold FutureCell.next.
  destruct (step ev s) as [s'|] eqn:E; simpl; [|done].
  destruct ev as [|i|i]; simpl in E.
  - destruct (worker_step compute (cell s) (go s)) as [[f w]|] eqn:Ew; simplify_eq/=.
    destruct Hw as (Hv0 & He0 & Hd0 & _). rewrite Hd in Hd0.
    unfold worker_step in Ew.
    destruct (w_pc (go s)); simpl in *; repeat case_match; simplify_eq/=; done.
  - destruct (callers s !! i) as [c|] eqn:Ei; simplify_eq/=.
    destruct (caller_step (cell s) (heap_next s) c) as [[[f hp] c']|] eqn:Ec; simplify_eq/=.
    apply caller_step_fields in Ec as (-> & -> & -> & _). done.
  - destruct (callers s !! i) as [c|] eqn:Ei; simplify_eq/=.
    destruct (caller_timer c) as [c'|] eqn:Ec; simplify_eq/=. done.
Qed.

(** The step that sets [done] finds both results already stored. *)
Lemma next_done_rise ev s :
  Inv s → done (cell s) = false → done (cell (next ev s)) = true →
  ev = Worker ∧ w_pc (go s) = W_set_done
  ∧ compute = Some (value (cell s), err (cell s))
  ∧ value (cell (next ev s)) = value (cell s)
  ∧ err (cell (next ev s)) = err (cell s).
Proof.
  intros (Hw & Hc & Hhp) Hd. unfold FutureCell.next.
  destruct (step ev s) as [s'|] eqn:E; simpl; [|congruence].
  intros Hd'. destruct ev as [|i|i]; simpl in E.
  - destruct (worker_step compute (cell s) (go s)) as [[f w]|] eqn:Ew; simplify_eq/=.
    destruct Hw as (Hv0 & He0 & Hd0 & _ & _ & Hcomp & _).
    unfold worker_step in Ew.
    destruct (w_pc (go s)); simpl in *; repeat case_match; simplify_eq/=;
      try congruence.
    repeat split; try done. rewrite Hv0, He0. apply Hcomp. lia.
  - destruct (callers s !! i) as [c|] eqn:Ei; simplify_eq/=.
    destruct (caller_step (cell s) (heap_next s) c) as [[[f hp] c']|] eqn:Ec; simplify_eq/=.
    apply caller_step_fields in Ec as (_ & _ & Hx & _). congruence.
  - destruct (callers s !! i) as [c|] eqn:Ei; simplify_eq/=.
    destruct (caller_timer c) as [c'|] eqn:Ec; simplify_eq/=. congruence.
Qed.

Lemma trace_done_stable evs s :
  Inv s → done (cell s) = true →
  Forall (λ s', value (cell s') = value (cell s) ∧ err (cell s') = err (cell s)
                ∧ done (cell s') = true) (trace evs s).
Proof.
  revert s. induction evs as [|ev evs IH]; simpl; intros s HI Hd.
  - by repeat constructor.
  - constructor; [done|].
    destruct (next_done_stable ev s HI Hd) as (Hv & He & Hd').
    eapply Forall_impl; [apply IH; [by apply next_inv|done]|].
    simpl. intros s' (-> & -> & ->). done.
Qed.

Lemma rises_all_true l : Forall (λ b, b = true) l → rises l = 0 ∧ falls l = 0.
Proof.
  induction 1 as [|b l Hb Hl IH]; [done|]. subst b.
  destruct l as [|b' l]; [done|]. inversion Hl; subst. simpl in *. lia.
Qed.

Lemma trace_rises evs s :
  Inv s →
  rises (done_flags (trace evs s)) ≤ 1 ∧ falls (done_flags (trace evs s)) = 0.
Proof.
  revert s. induction evs as [|ev evs IH]; intros s HI; [simpl; lia|].
  destruct (done (cell s)) eqn:Hd.
  - apply (trace_done_stable (ev :: evs)) in Hd; [|done].
    assert (Forall (λ b, b = true) (done_flags (trace (ev :: evs) s))) as Hall.
    { unfold done_flags. apply Forall_fmap. eapply Forall_impl; [exact Hd|].
      simpl. tauto. }
    apply rises_all_true in Hall. lia.
  - cbn [FutureCell.trace]. destruct (trace_head evs (next ev s)) as [rest Hrest].
    unfold done_flags in *.
    specialize (IH (next ev s) (next_inv ev s HI)).
    rewrite Hrest in *. rewrite !fmap_cons in *.
    rewrite rises_cons2, falls_cons2, Hd. cbn [negb andb].
    destruct (done (cell (next ev s))) eqn:Hd'; [|lia].
    pose proof (trace_done_stable evs _ (next_inv ev s HI) Hd') as Hst.
    rewrite Hrest in Hst.
    assert (Forall (λ b, b = true) ((λ s, done (cell s)) <$> next ev s :: rest)) as Hall.
    { apply Forall_fmap. eapply Forall_impl; [exact Hst|]. simpl. tauto. }
    apply rises_all_true in Hall. rewrite fmap_cons, Hd' in Hall. lia.
Qed.

Lemma rises_reach l :
  head l = Some false → last l = Some true → 1 ≤ rises l.
Proof.
  induction l as [|b1 [|b2 l] IH]; simpl; try done.
  - intros; simplify_eq.
  - intros Hh Hl. simplify_eq. destruct b2; simpl; [lia|].
    specialize (IH eq_refl). simpl in IH. apply IH in Hl. lia.
Qed.

(** *** Progress

    When the computation returns, the spawned goroutine is never blocked:
    nobody holds the mutex while the channel is open. *)
Lemma worker_progress s :
  Inv s → is_Some compute → stage (w_pc (go s)) < 7 →
  ∃ s', step Worker s = Some s'
        ∧ stage (w_pc (go s')) = S (stage (w_pc (go s)))
        ∧ callers s' = callers s ∧ heap_next s' = heap_next s.
Proof.
  intros ((Hv & He & Hd & Hwr & Hcl & Hcomp & Hrd) & _) [[v e] Hr] Hlt.
  specialize (Hrd Hlt). simpl. unfold worker_step. rewrite Hr, Hrd.
  destruct (w_pc (go s)); simpl in *; try lia;
    try rewrite Hwr; simpl; eauto.
  destruct (waitChan (cell s)); simpl in *; [eauto|done].
Qed.

Lemma run_cons ev evs s : run (ev :: evs) s = run evs (next ev s).
Proof. reflexivity. Qed.

Lemma run_app evs1 evs2 s : run (evs1 ++ evs2) s = run evs2 (run evs1 s).
Proof. unfold FutureCell.run. apply foldl_app. Qed.

Lemma worker_runs n s :
  Inv s → is_Some compute →
  stage (w_pc (go (run (replicate n Worker) s))) = (stage (w_pc (go s)) + n) `min` 7
  ∧ callers (run (replicate n Worker) s) = callers s
  ∧ heap_next (run (replicate n Worker) s) = heap_next s.
Proof.
  revert s. induction n as [|n IH]; intros s HI Hr.
  - simpl. split; [|done]. destruct (w_pc (go s)); simpl; lia.
  - cbn [replicate]. rewrite run_cons.
    destruct (decide (stage (w_pc (go s)) < 7)) as [Hlt|Hge].
    + destruct (worker_progress s HI Hr Hlt) as (s' & Hs & Hst & Hc & Hh).
      assert (next Worker s = s') as Hn by (unfold FutureCell.next; by rewrite Hs).
      rewrite Hn.
      destruct (IH s') as (IH1 & IH2 & IH3); [by eapply step_inv|done|].
      rewrite IH1, IH2, IH3, Hst. repeat split; try done. lia.
    + assert (next Worker s = s) as Hn.
      { unfold FutureCell.next. simpl. unfold worker_step.
        destruct (w_pc (go s)); simpl in *; try lia. done. }
      rewrite Hn.
      destruct (IH s) as (IH1 & IH2 & IH3); [done..|].
      rewrite IH1. repeat split; try done. lia.
Qed.

Lemma measure_0 (c : caller) : measure c = 0 → finished c.
Proof.
  unfold measure, finished. intros Hm.
  destruct (c_pc c); simpl in *; try lia.
  destruct (c_todo c); simpl in *; [done|lia].
Qed.

(** Once the channel is closed no caller is blocked. *)
Lemma caller_progress s i c :
  Inv s → waitChan (cell s) = Closed → callers s !! i = Some c → 0 < measure c →
  ∃ s' c', step (Caller i) s = Some s'
           ∧ callers s' = <[i := c']> (callers s)
           ∧ waitChan (cell s') = Closed
           ∧ measure c' < measure c
           ∧ history c' ++ pending c' = history c ++ pending c.
Proof.
  intros ((Hv & He & Hd & Hwr & Hcl & Hcomp & Hrd) & _ & _ & Hrs) Hclosed Hi Hm.
  rewrite Hclosed in Hcl. cbn [is_closed] in Hcl. symmetry in Hcl.
  apply Nat.leb_le in Hcl.
  assert (writer (mutex (cell s)) = false) as Hw.
  { rewrite Hwr. destruct (w_pc (go s)); simpl in *; try lia; done. }
  assert (holding c ≤ readers (mutex (cell s))) as Hheld.
  { rewrite Hrs. by eapply held_ge. }
  unfold holding in Hheld.
  simpl. rewrite Hi. simpl.
  unfold caller_step, rlock, runlock, measure, history, pending in *.
  rewrite Hclosed, Hw. cbn [is_closed].
  destruct (c_pc c) eqn:Hp; simpl in *;
    try (destruct (readers (mutex (cell s))); [lia|]);
    try (eexists _, _; repeat split; simpl; try done; try lia;
         rewrite ?fmap_app, <-?app_assoc; done).
  destruct (c_todo c) as [|k rest] eqn:Ht; simpl in *; [lia|].
  eexists _, _; repeat split; simpl; try done; destruct k; simpl; try done; lia.
Qed.

Lemma next_callers_length ev s : length (callers (next ev s)) = length (callers s).
Proof.
  unfold FutureCell.next. destruct (step ev s) as [s'|] eqn:E; simpl; [|done].
  destruct ev as [|i|i]; simpl in E.
  - destruct (worker_step compute (cell s) (go s)) as [[f w]|]; by simplify_eq/=.
  - destruct (callers s !! i) as [c|]; simplify_eq/=.
    destruct (caller_step (cell s) (heap_next s) c) as [[[f hp] c']|]; simplify_eq/=.
    by rewrite length_insert.
  - destruct (callers s !! i) as [c|]; simplify_eq/=.
    destruct (caller_timer c) as [c'|]; simplify_eq/=.
    by rewrite length_insert.
Qed.

Lemma run_callers_length evs s : length (callers (run evs s)) = length (callers s).
Proof.
  revert s. induction evs as [|ev evs IH]; intros s; [done|].
  rewrite run_cons, IH. apply next_callers_length.
Qed.

Lemma finished_pending (c : caller) : finished c → pending c = [].
Proof. unfold finished, pending. intros [-> ->]. done. Qed.

(** Scheduled on its own after completion, a caller gets through all its
    calls. *)
Lemma caller_runs m : ∀ s i c,
  measure c ≤ m → Inv s → waitChan (cell s) = Closed → callers s !! i = Some c →
  ∃ n c', callers (run (replicate n (Caller i)) s) = <[i := c']> (callers s)
          ∧ finished c'
          ∧ history c' = history c ++ pending c
          ∧ waitChan (cell (run (replicate n (Caller i)) s)) = Closed.
Proof.
  induction m as [|m IH]; intros s i c Hm HI Hcl Hi.
  - exists 0, c. simpl. assert (finished c) as Hf by (apply measure_0; lia).
    rewrite list_insert_id by done.
    rewrite finished_pending, app_nil_r by done. done.
  - destruct (decide (measure c = 0)) as [H0|Hpos].
    { apply (IH s i c); [lia|done..]. }
    destruct (caller_progress s i c HI Hcl Hi) as (s' & c1 & Hs & Hcs & Hcl' & Hlt & Hh);
      [lia|].
    assert (next (Caller i) s = s') as Hn by (unfold FutureCell.next; by rewrite Hs).
    assert (callers s' !! i = Some c1) as Hi'.
    { rewrite Hcs. apply list_lookup_insert_eq. by eapply lookup_lt_Some. }
    destruct (IH s' i c1) as (n & c' & Hc' & Hf & Hh' & Hcl'');
      [lia|by eapply step_inv|done..|].
    exists (S n), c'. cbn [replicate]. rewrite run_cons, Hn, Hc', Hcs.
    rewrite list_insert_insert_eq. repeat split; try done; try apply Hf.
    rewrite Hh'. rewrite <-Hh.
    assert (pending c' = []) as Hp by by apply finished_pending.
    assert (history c' ++ pending c' = history c1 ++ pending c1) as Hx.
    { by rewrite Hp, app_nil_r. }
    done.
Qed.

Lemma callers_run k : ∀ s,
  Inv s → waitChan (cell s) = Closed →
  ∃ evs, waitChan (cell (run evs s)) = Closed
         ∧ ∀ i c, callers s !! i = Some c →
             ∃ c', callers (run evs s) !! i = Some c'
                   ∧ if decide (i < k)
                     then finished c' ∧ history c' = history c ++ pending c
                     else c' = c.
Proof.
  induction k as [|k IH]; intros s HI Hcl.
  - exists []. split; [done|]. intros i c Hi. exists c. split; [done|].
    destruct (decide (i < 0)); [lia|done].
  - destruct (IH s HI Hcl) as (evs & Hcl' & Hall).
    destruct (callers s !! k) as [ck|] eqn:Hk.
    + destruct (Hall k ck Hk) as (ck' & Hk' & Heq).
      destruct (decide (k < k)) as [?|_]; [lia|]. subst ck'.
      destruct (caller_runs (measure ck) (run evs s) k ck) as (n & c' & Hc' & Hf & Hh & Hcl'');
        [lia|by apply run_inv|done..|].
      exists (evs ++ replicate n (Caller k)). rewrite run_app. split; [done|].
      intros i c Hi. rewrite Hc'.
      destruct (Hall i c Hi) as (ci & Hi' & Hci).
      destruct (decide (i = k)) as [->|Hne].
      * simplify_eq. exists c'.
        rewrite list_lookup_insert_eq by by eapply lookup_lt_Some.
        split; [done|]. destruct (decide (k < S k)); [done|lia].
      * exists ci. rewrite list_lookup_insert_ne by done. split; [done|].
        destruct (decide (i < k)), (decide (i < S k)); try lia; done.
    + exists evs. split; [done|]. intros i c Hi.
      destruct (Hall i c Hi) as (ci & Hi' & Hci). exists ci. split; [done|].
      assert (i ≠ k) by (intros ->; congruence).
      destruct (decide (i < k)), (decide (i < S k)); try lia; done.
Qed.

(** From every reachable configuration of a handle whose computation
    returns, some schedule lets every caller return from all its calls. *)
Lemma completion s :
  Inv s → is_Some compute →
  ∃ evs, waitChan (cell (run evs s)) = Closed
         ∧ Forall2 (λ c c', finished c' ∧ history c' = history c ++ pending c)
                   (callers s) (callers (run evs s)).
Proof.
  intros HI Hr.
  destruct (worker_runs 7 s HI Hr) as (Hst & Hcs & Hhp).
  set (s1 := run (replicate 7 Worker) s) in *.
  assert (Inv s1) as HI1 by by apply run_inv.
  assert (waitChan (cell s1) = Closed) as Hcl.
  { destruct HI1 as ((_ & _ & _ & _ & Hc & _) & _). rewrite Hst in Hc.
    replace ((stage (w_pc (go s)) + 7) `min` 7) with 7 in Hc by lia.
    destruct (waitChan (cell s1)); done. }
  destruct (callers_run (length (callers s1)) s1 HI1 Hcl) as (evs & Hcl' & Hall).
  exists (replicate 7 Worker ++ evs). rewrite run_app. fold s1. split; [done|].
  rewrite <-Hcs. apply Forall2_same_length_lookup_2.
  - symmetry. apply run_callers_length.
  - intros i c c' Hc Hc'. destruct (Hall i c Hc) as (c'' & Hc'' & Hd).
    rewrite Hc' in Hc''. injection Hc'' as <-.
    apply lookup_lt_Some in Hc. revert Hd.
    destruct (decide (i < length (callers s1))); [done|lia].
Qed.

Lemma trace_drop : ∀ i evs s0 s,
  trace evs s0 !! i = Some s → drop i (trace evs s0) = trace (drop i evs) s.
Proof.
  induction i as [|i IH]; intros evs s0 s Hi.
  - destruct (trace_head evs s0) as [rest Hrest]. rewrite Hrest in Hi.
    simpl in Hi. injection Hi as <-. by rewrite !drop_0.
  - destruct evs as [|ev evs]; [done|]. simpl in *. by apply IH.
Qed.

Lemma trace_succ evs s0 i s s' :
  trace evs s0 !! i = Some s → trace evs s0 !! S i = Some s' →
  ∃ ev, s' = next ev s.
Proof.
  intros Hi HS. pose proof (trace_drop i evs s0 s Hi) as Hd.
  assert (drop i (trace evs s0) !! 1 = Some s') as H1.
  { rewrite lookup_drop. by replace (i + 1) with (S i) by lia. }
  rewrite Hd in H1. destruct (drop i evs) as [|ev evs']; [done|].
  simpl in H1. destruct (trace_head evs' (next ev s)) as [rest Hrest].
  rewrite Hrest in H1. simpl in H1. injection H1 as <-. eauto.
Qed.

Lemma trace_later evs s0 i j s s' :
  i ≤ j → trace evs s0 !! i = Some s → trace evs s0 !! j = Some s' →
  ∃ evs', s' ∈ trace evs' s.
Proof.
  intros Hle Hi Hj. pose proof (trace_drop i evs s0 s Hi) as Hd.
  exists (drop i evs). rewrite <-Hd. apply list_elem_of_lookup. exists (j - i).
  rewrite lookup_drop. by replace (i + (j - i)) with j by lia.
Qed.

Lemma trace_last evs s : last (trace evs s) = Some (run evs s).
Proof.
  revert s. induction evs as [|ev evs IH]; intros s; [done|].
  cbn [FutureCell.trace]. destruct (trace_head evs (next ev s)) as [rest Hrest].
  rewrite run_cons, <-IH, Hrest. done.
Qed.

(** A call that did not time out returned what the struct holds, which is
    what the computation returned. *)
Lemma answer_completed s c a :
  Inv s → c ∈ callers s → a ∈ c_returned c → timed_out a = false →
  compute = Some (got a).
Proof.
  intros (_ & Hc & _) Hin Ha Ht.
  rewrite Forall_forall in Hc. destruct (Hc c Hin) as [_ Hret].
  rewrite Forall_forall in Hret. specialize (Hret a Ha).
  unfold CellInv.answer_ok in Hret. rewrite Ht in Hret. tauto.
Qed.

Lemma answer_timed_out s c a :
  Inv s → c ∈ callers s → a ∈ c_returned c → timed_out a = true →
  from a = GetWithTimeout ∧ timeout_result (heap_next s) (got a).
Proof.
  intros (_ & Hc & _) Hin Ha Ht.
  rewrite Forall_forall in Hc. destruct (Hc c Hin) as [_ Hret].
  rewrite Forall_forall in Hret. specialize (Hret a Ha).
  unfold CellInv.answer_ok in Hret. by rewrite Ht in Hret.
Qed.

(** Somebody returned from the completed path only if the struct is
    complete and holds the computation's pair. *)
Lemma completed_cell s c a :
  Inv s → c ∈ callers s → a ∈ c_returned c → timed_out a = false →
  done (cell s) = true ∧ got a = (value (cell s), err (cell s)).
Proof.
  intros HI Hin Ha Ht. pose proof HI as ((Hv & He & Hd & _ & Hcl & Hcomp & _) & Hc & _).
  rewrite Forall_forall in Hc. destruct (Hc c Hin) as [_ Hret].
  rewrite Forall_forall in Hret. specialize (Hret a Ha).
  unfold CellInv.answer_ok in Hret. rewrite Ht in Hret. destruct Hret as [Hgot Hclosed].
  rewrite Hclosed in Hcl. cbn [is_closed] in Hcl. symmetry in Hcl.
  apply Nat.leb_le in Hcl.
  rewrite Hv, He, Hd.
  replace (3 <=? stage (w_pc (go s))) with true by (symmetry; apply Nat.leb_le; lia).
  replace (4 <=? stage (w_pc (go s))) with true by (symmetry; apply Nat.leb_le; lia).
  replace (5 <=? stage (w_pc (go s))) with true by (symmetry; apply Nat.leb_le; lia).
  split; [done|]. rewrite Hcomp in Hgot by lia. by injection Hgot as <-.
Qed.

Lemma caller_step_script (f : Future A) hp c f' hp' c' :
  caller_step f hp c = Some (f', hp', c') → script c' = script c.
Proof.
  unfold caller_step, rlock, script, history, pending. intros Hst.
  destruct (c_pc c) eqn:Hp; simpl in Hst; repeat case_match; simplify_eq; simpl;
    rewrite ?fmap_app, <-?app_assoc; try done.
  match goal with |- context [entry ?k] => by destruct k end.
Qed.

Lemma caller_timer_script (c c' : caller) : caller_timer c = Some c' → script c' = script c.
Proof.
  unfold caller_timer, script, history, pending. intros Hst.
  destruct (c_pc c) eqn:Hp; simplify_eq. done.
Qed.

Lemma next_script ev s : script <$> callers (next ev s) = script <$> callers s.
Proof.
  unfold FutureCell.next. destruct (step ev s) as [s'|] eqn:E; simpl; [|done].
  destruct ev as [|i|i]; simpl in E.
  - destruct (worker_step compute (cell s) (go s)) as [[f w]|]; by simplify_eq/=.
  - destruct (callers s !! i) as [c|] eqn:Ei; simplify_eq/=.
    destruct (caller_step (cell s) (heap_next s) c) as [[[f hp] c']|] eqn:Ec; simplify_eq/=.
    rewrite list_fmap_insert, (caller_step_script _ _ _ _ _ _ Ec).
    apply list_insert_id. by rewrite list_lookup_fmap, Ei.
  - destruct (callers s !! i) as [c|] eqn:Ei; simplify_eq/=.
    destruct (caller_timer c) as [c'|] eqn:Ec; simplify_eq/=.
    rewrite list_fmap_insert, (caller_timer_script _ _ Ec).
    apply list_insert_id. by rewrite list_lookup_fmap, Ei.
Qed.

Lemma run_script evs s : script <$> callers (run evs s) = script <$> callers s.
Proof.
  revert s. induction evs as [|ev evs IH]; intros s; [done|].
  by rewrite run_cons, IH, next_script.
Qed.

Lemma init_script todos :
  script <$> callers (NewFuture (A := A) hp0 todos) = todos.
Proof.
  simpl. rewrite <-list_fmap_compose. rewrite <-(list_fmap_id todos) at 2.
  apply list_fmap_ext. intros _ todo _. done.
Qed.

(** From any point of any run of a handle whose computation returns, a
    schedule exists under which every caller has returned from every call
    it was to make. *)
Lemma all_calls_return todos evs :
  is_Some compute →
  ∃ evs', Forall2 (λ todo c, finished c ∧ history c = todo) todos
            (callers (run (evs ++ evs') (NewFuture hp0 todos))).
Proof.
  intros Hr. set (s := run evs (NewFuture hp0 todos)).
  assert (Inv s) as HI by apply run_inv, Inv_init.
  destruct (completion s HI Hr) as (evs' & _ & Hall).
  exists evs'. rewrite run_app. fold s.
  rewrite <-(init_script todos), <-(run_script evs). fold s.
  apply Forall2_fmap_l. exact Hall.
Qed.

(** The struct never holds an error allocated after [NewFuture] when the
    computation's own error was allocated before. *)
Lemma cell_err_old s n m :
  Inv s →
  match compute with Some (_, Some e) => addr e < hp0 | _ => True end →
  hp0 ≤ n →
  err (cell s) ≠ Some (ErrorString n m).
Proof.
  intros ((_ & He & _ & _ & _ & Hcomp & _) & _) Halloc Hn Heq.
  rewrite He in Heq. destruct (4 <=? stage (w_pc (go s))) eqn:E; [|done].
  apply Nat.leb_le in E. rewrite Hcomp in Halloc by lia.
  rewrite Heq in Halloc. simpl in Halloc. lia.
Qed.

End Invariant.
End FutureCellFacts.

(** ** Theorems: the combinators *)

Module AsyncFacts.
Import FutureCell Async.
Local Open Scope nat_scope.

Section Get.
Context {A : Type} `{Zero A}.

Lemma settled_fields (r : A * error) :
  value (settled r) = r.1 ∧ err (settled r) = r.2
  ∧ done (settled r) = true ∧ waitChan (settled r) = Closed.
Proof. destruct r as [v e]. repeat split. Qed.

(** [Get] on a handle whose computation returned [r]: the caller goes on
    with [r] once both it and the handle have got there. *)
Lemma Get_settled (f : handle A) r wf w :
  outcome f = Some (r, wf) →
  Get f w = Some (r, {| now := now w `max` now wf; calls := calls w |}).
Proof.
  intros Hf. unfold Get, closed_at, cell_at. rewrite Hf. simpl.
  replace (now wf <=? now w `max` now wf) with true
    by (symmetry; apply Nat.leb_le; lia).
  destruct (settled_fields r) as (-> & -> & _). by destruct r.
Qed.

Lemma Get_never (f : handle A) w : outcome f = None → Get f w = None.
Proof. intros Hf. unfold Get, closed_at. by rewrite Hf. Qed.

End Get.

Section Sequence.
Context {A : Type} `{Zero A}.

Lemma returns_outcome (f : handle A) r :
  returns f = Some r → ∃ wf, outcome f = Some (r, wf) ∧ closed_at f = Some (now wf).
Proof.
  unfold returns, closed_at. destruct (outcome f) as [[r' wf]|]; simpl; [|done].
  intros [= ->]. eauto.
Qed.

Lemma latest_app t0 (fs gs : list (handle A)) :
  latest t0 (fs ++ gs) = latest (latest t0 fs) gs.
Proof. unfold latest. apply foldl_app. Qed.

Lemma latest_ge t0 (fs : list (handle A)) : t0 ≤ latest t0 fs.
Proof.
  revert t0. induction fs as [|f fs IH]; intros t0; simpl; [done|].
  etrans; [|apply IH]. lia.
Qed.

Lemma latest_mono t0 t1 (fs : list (handle A)) :
  t0 ≤ t1 → latest t0 fs ≤ latest t1 fs.
Proof.
  revert t0 t1. induction fs as [|f fs IH]; intros t0 t1 Hle; simpl; [done|].
  apply IH. lia.
Qed.

Lemma latest_closed t0 (fs : list (handle A)) f t :
  f ∈ fs → closed_at f = Some t → t ≤ latest t0 fs.
Proof.
  intros Hin Hc. revert t0. induction Hin as [f fs|f g fs Hin IH]; intros t0.
  - simpl. rewrite Hc. simpl. etrans; [|apply latest_ge]. lia.
  - simpl. by apply IH.
Qed.

(** Over inputs that all succeeded the loop stores their values from
    index [i] on and goes on with the rest, at the time the slowest of
    them completed. *)
Lemma Sequence_loop_app (oks : list (handle A)) : ∀ vs rest i results w,
  returns <$> oks = (λ v, Some (v, nil)) <$> vs →
  Sequence_loop i (oks ++ rest) results w
  = Sequence_loop (i + length oks) rest (fill i vs results)
      {| now := latest (now w) oks; calls := calls w |}.
Proof.
  induction oks as [|f oks IH]; intros vs rest i results w Hvs.
  - destruct vs; [|done]. simpl. rewrite Nat.add_0_r. by destruct w.
  - destruct vs as [|v vs]; [done|]. simpl in Hvs. injection Hvs as Hf Hvs.
    destruct (returns_outcome f _ Hf) as (wf & Ho & Hc).
    cbn [app Sequence_loop]. unfold mbind at 1, Task_bind at 1.
    rewrite (Get_settled f _ wf w Ho). cbn [is_err nil].
    rewrite (IH vs rest (S i) _ _ Hvs). cbn [length fill now calls foldl latest].
    unfold latest. cbn [foldl]. rewrite Hc. cbn [default].
    by replace (i + S (length oks)) with (S i + length oks) by lia.
Qed.

Lemma fill_spec (vs : list A) : ∀ i results,
  i + length vs ≤ length results →
  fill i vs results = take i results ++ vs ++ drop (i + length vs) results.
Proof.
  induction vs as [|v vs IH]; intros i results Hlen; simpl in *.
  - rewrite Nat.add_0_r. by rewrite take_drop.
  - rewrite IH by (rewrite length_insert; lia).
    rewrite drop_insert_lt by lia.
    replace (S i + length vs) with (i + S (length vs)) by lia.
    rewrite (take_S_r _ i v) by (apply list_lookup_insert_eq; lia).
    rewrite take_insert_ge by lia. by rewrite <-app_assoc.
Qed.

Lemma fill_all (vs : list A) : fill 0 vs (replicate (length vs) zero) = vs.
Proof.
  rewrite fill_spec by (rewrite length_replicate; lia). simpl.
  rewrite drop_ge by (rewrite length_replicate; lia). by rewrite app_nil_r.
Qed.

End Sequence.

Example Successful_Get_ex :
  (f ← Successful 7%Z; Get f) {| now := 3; calls := 0 |}
  = Some ((7%Z, nil), {| now := 3; calls := 0 |}).
Proof. reflexivity. Qed.

Example Map_ex :
  (f ← Successful 21%Z; m ← Map f (λ x, mret (x * 2)%Z); Get m) {| now := 0; calls := 0 |}
  = Some ((42%Z, nil), {| now := 0; calls := 0 |}).
Proof. reflexivity. Qed.

Example Sequence_ex :
  (f1 ← Successful 1%Z; f2 ← Successful 2%Z; f3 ← Successful 3%Z;
   s ← Sequence [f1; f2; f3]; Get s) {| now := 0; calls := 0 |}
  = Some ((mk_slice [1%Z; 2%Z; 3%Z], nil), {| now := 0; calls := 0 |}).
Proof. reflexivity. Qed.

Example FlatMap_ex :
  (f ← Successful 5%Z; m ← FlatMap f (λ n, Successful (n + 1)%Z); Get m)
    {| now := 0; calls := 0 |}
  = Some ((6%Z, nil), {| now := 0; calls := 0 |}).
Proof. reflexivity. Qed.

(** The tests "FlatMap with failed inner future", "error propagation in
    chain" and "zero value types". *)
Example FlatMap_inner_failure :
  let E := Some (ErrorString 1 "inner computation failed") in
  (f ← Successful 21%Z; m ← FlatMap f (λ _, Failed (A := Z) E); Get m)
    {| now := 0; calls := 0 |}
  = Some ((0%Z, E), {| now := 0; calls := 0 |}).
Proof. reflexivity. Qed.

Example chain_error :
  let E := Some (ErrorString 1 "middle chain error") in
  (f ← Successful 5%Z;
   s ← Map f (λ n, mret (n + 1)%Z);
   failed ← FlatMap s (λ _, Failed (A := Z) E);
   final ← Map failed (λ n, mret (n * 2)%Z);
   r ← Get final; mret (r, outcome final)) {| now := 0; calls := 0 |}
  = Some (((0%Z, E), Some ((0%Z, E), {| now := 0; calls := 0 |})),
          {| now := 0; calls := 0 |}).
Proof. reflexivity. Qed.

Example zero_value_pointer :
  (f ← Successful (None : option Z); Get f) {| now := 0; calls := 0 |}
  = Some ((None, nil), {| now := 0; calls := 0 |}).
Proof. reflexivity. Qed.

(** The first input takes longest; the output keeps the argument order. *)
Example Sequence_slow_first :
  (f1 ← NewFuture (Sleep 300;; mret (5%Z, nil));
   f2 ← NewFuture (Sleep 100;; mret (10%Z, nil));
   s ← Sequence [f1; f2]; Get s) {| now := 0; calls := 0 |}
  = Some ((mk_slice [5%Z; 10%Z], nil), {| now := 300; calls := 0 |}).
Proof. reflexivity. Qed.

(** Unfold the monad and the constructors of handles, not the combinators. *)
Ltac task_unfold :=
  cbv [Failed Successful NewFuture mbind Task_bind mret Task_ret].

Ltac task_simpl := cbn [outcome now calls is_err nil fst snd].

Lemma world_eta w : {| now := now w; calls := calls w |} = w.
Proof. by destruct w. Qed.

(** What the goroutine of [Map] does, by the outcome of its input. *)
Lemma Map_outcome {A B} `{Zero A} `{Zero B} (f : handle A) (fn : A → Task B) w :
  Map f fn w
  = Some (@Handle B
            match outcome f with
            | None => None
            | Some ((v, Some e), wf) =>
                Some ((zero, Some e), {| now := now w `max` now wf; calls := 0 |})
            | Some ((v, None), wf) =>
                match fn v {| now := now w `max` now wf; calls := 1 |} with
                | Some (b, w') => Some ((b, nil), w')
                | None => None
                end
            end, w).
Proof.
  unfold Map, NewFuture. do 2 f_equal. f_equal.
  unfold mbind, Task_bind.
  destruct (outcome f) as [[[v [e|]] wf]|] eqn:Ho.
  - by rewrite (Get_settled f _ wf _ Ho).
  - rewrite (Get_settled f _ wf _ Ho). cbn [is_err]. unfold invoke. simpl.
    by destruct (fn v _) as [[b w']|].
  - by rewrite Get_never.
Qed.

(** What the goroutine of [FlatMap] does, by the outcome of its input. *)
Lemma FlatMap_outcome {A B} `{Zero A} `{Zero B}
    (f : handle A) (fn : A → Task (handle B)) w :
  FlatMap f fn w
  = Some (@Handle B
            match outcome f with
            | None => None
            | Some ((v, Some e), wf) =>
                Some ((zero, Some e), {| now := now w `max` now wf; calls := 0 |})
            | Some ((v, None), wf) =>
                match fn v {| now := now w `max` now wf; calls := 1 |} with
                | Some (g, w1) =>
                    match outcome g with
                    | Some (r, wg) =>
                        Some (r, {| now := now w1 `max` now wg; calls := calls w1 |})
                    | None => None
                    end
                | None => None
                end
            end, w).
Proof.
  unfold FlatMap, NewFuture. do 2 f_equal. f_equal.
  unfold mbind, Task_bind.
  destruct (outcome f) as [[[v [e|]] wf]|] eqn:Ho.
  - by rewrite (Get_settled f _ wf _ Ho).
  - rewrite (Get_settled f _ wf _ Ho). cbn [is_err]. unfold invoke. simpl.
    destruct (fn v _) as [[g w1]|]; [|done].
    destruct (outcome g) as [[r wg]|] eqn:Hg.
    + by rewrite (Get_settled g _ wg _ Hg).
    + by rewrite Get_never.
  - by rewrite Get_never.
Qed.

(** C5: [Map(Failed(E), fn).Get()] is the zero value of the target type
    with [E] itself, and the goroutine of [Map] has called nothing, whatever
    [fn] is (also one that would never return); on a successful input [Map]
    calls [fn] once on the value and succeeds with what it returns.  The
    last part gives the same for any input handle. *)
Theorem Map_spec {A B} `{Zero A} `{Zero B} (fn : A → Task B) (w : world) :
  (∀ e : errorString,
     (f ← Failed (A := A) (Some e); m ← Map f fn; Get m) w
     = Some ((zero, Some e), w)
     ∧ (f ← Failed (A := A) (Some e); Map f fn) w
       = Some (@Handle B (Some ((zero, Some e), {| now := now w; calls := 0 |})), w))
  ∧ (∀ (v : A) (g : A → B),
       (f ← Successful v; m ← Map f (λ x, mret (g x)); Get m) w
       = Some ((g v, nil), w)
       ∧ (f ← Successful v; Map f (λ x, mret (g x))) w
         = Some (@Handle B (Some ((g v, nil), {| now := now w; calls := 1 |})), w))
  ∧ (∀ f : handle A,
       Map f fn w
       = Some (@Handle B
                 match outcome f with
                 | None => None
                 | Some ((v, Some e), wf) =>
                     Some ((zero, Some e), {| now := now w `max` now wf; calls := 0 |})
                 | Some ((v, None), wf) =>
                     match fn v {| now := now w `max` now wf; calls := 1 |} with
                     | Some (b, w') => Some ((b, nil), w')
                     | None => None
                     end
                 end, w)).
Proof.
  split; [|split].
  - intros e. task_unfold. rewrite Map_outcome. task_simpl.
    rewrite Nat.max_id. split; [|done].
    erewrite Get_settled by done. task_simpl. by rewrite Nat.max_id, world_eta.
  - intros v g. task_unfold. rewrite (Map_outcome _ (λ x w, Some (g x, w))).
    task_simpl. rewrite Nat.max_id. split; [|done].
    erewrite Get_settled by done. task_simpl. by rewrite Nat.max_id, world_eta.
  - intros f. apply Map_outcome.
Qed.

(** C4: [FlatMap] on a failed input hands the failure on with the zero
    value and never calls [bind]; on a successful input it calls [bind] on
    the value and the outer handle ends with the pair of the handle [bind]
    returned, value or failure, as it is; [FlatMap(Successful(5), n =>
    Successful(n+1)).Get()] is [(6, nil)]. *)
Theorem FlatMap_spec {A B} `{Zero A} `{Zero B} (fn : A → Task (handle B)) (w : world) :
  (∀ f : handle A,
     FlatMap f fn w
     = Some (@Handle B
               match outcome f with
               | None => None
               | Some ((v, Some e), wf) =>
                   Some ((zero, Some e), {| now := now w `max` now wf; calls := 0 |})
               | Some ((v, None), wf) =>
                   match fn v {| now := now w `max` now wf; calls := 1 |} with
                   | Some (g, w1) =>
                       match outcome g with
                       | Some (r, wg) =>
                           Some (r, {| now := now w1 `max` now wg; calls := calls w1 |})
                       | None => None
                       end
                   | None => None
                   end
               end, w))
  ∧ (∀ e : errorString,
       (f ← Failed (A := A) (Some e); m ← FlatMap f fn; Get m) w
       = Some ((zero, Some e), w))
  ∧ (∀ (v : A) (e : errorString),
       (f ← Successful v; m ← FlatMap f (λ _, Failed (A := B) (Some e)); Get m) w
       = Some ((zero, Some e), w))
  ∧ (f ← Successful 5%Z; m ← FlatMap f (λ n, Successful (n + 1)%Z); Get m) w
    = Some ((6%Z, nil), w).
Proof.
  split; [|split; [|split]].
  - intros f. apply FlatMap_outcome.
  - intros e. task_unfold. rewrite FlatMap_outcome. task_simpl.
    erewrite Get_settled by done. task_simpl. by rewrite !Nat.max_id, world_eta.
  - intros v e. task_unfold.
    rewrite (FlatMap_outcome _ (λ _ w, Some (@Handle B _, w))). task_simpl.
    erewrite Get_settled by done. task_simpl. by rewrite !Nat.max_id, world_eta.
  - task_unfold.
    rewrite (FlatMap_outcome _ (λ n w, Some (@Handle Z _, w))). task_simpl.
    erewrite Get_settled by done. task_simpl. by rewrite !Nat.max_id, world_eta.
Qed.

(** C7: [Sequence()] gives a handle that is complete the moment it is
    made and succeeds with an empty sequence and a nil error. *)
Theorem Sequence_empty {A} `{Zero A} (w : world) :
  (s ← Sequence (A := A) []; Get s) w = Some ((mk_slice [], nil), w)
  ∧ len (mk_slice ([] : list A)) = 0
  ∧ Sequence (A := A) [] w
    = Some (@Handle (slice A) (Some ((mk_slice [], nil), {| now := now w; calls := 0 |})), w).
Proof.
  split; [|split]; [|done..].
  unfold Sequence. task_unfold. cbn [length make elems_of replicate Sequence_loop].
  task_unfold. erewrite Get_settled by done. task_simpl.
  by rewrite Nat.max_id, world_eta.
Qed.

(** The goroutine of [Sequence] over inputs that all succeeded. *)
Lemma Sequence_all_ok {A} `{Zero A} (fs : list (handle A)) (vs : list A) w :
  returns <$> fs = (λ v, Some (v, nil)) <$> vs →
  Sequence fs w
  = Some (@Handle (slice A)
            (Some ((mk_slice vs, nil), {| now := latest (now w) fs; calls := 0 |})), w).
Proof.
  intros Hvs. unfold Sequence, NewFuture. do 3 f_equal.
  pose proof (Sequence_loop_app fs vs [] 0) as Hloop.
  setoid_rewrite app_nil_r in Hloop.
  rewrite (Hloop _ _ Hvs). cbn [Sequence_loop now calls].
  unfold mret, Task_ret. do 4 f_equal.
  assert (length fs = length vs) as ->.
  { rewrite <-(length_fmap returns fs), Hvs. by rewrite length_fmap. }
  apply fill_all.
Qed.

(** C6: when every input succeeds, the output holds the value of input
    [i] at position [i], whatever the times at which the inputs complete;
    every input has been waited for when the output completes, and the
    caller of [Get] goes on once the slowest input has completed.
    [Sequence(Successful(1), Successful(2), Successful(3)).Get()] is
    [([1,2,3], nil)]. *)
Theorem Sequence_ordered {A} `{Zero A} (fs : list (handle A)) (vs : list A) (w : world)
    (Hok : returns <$> fs = (λ v, Some (v, nil)) <$> vs) :
  (s ← Sequence fs; Get s) w
  = Some ((mk_slice vs, nil), {| now := latest (now w) fs; calls := calls w |})
  ∧ (∀ i f, fs !! i = Some f → ∃ v, returns f = Some (v, nil) ∧ vs !! i = Some v)
  ∧ (∀ out, Sequence fs w = Some (out, w) → Forall (λ f, awaited_by f out) fs)
  ∧ (f1 ← Successful 1%Z; f2 ← Successful 2%Z; f3 ← Successful 3%Z;
     s ← Sequence [f1; f2; f3]; Get s) w
    = Some ((mk_slice [1%Z; 2%Z; 3%Z], nil), w).
Proof.
  split; [|split; [|split]].
  - unfold mbind, Task_bind. rewrite (Sequence_all_ok fs vs w Hok).
    erewrite Get_settled by done. task_simpl.
    do 3 f_equal. pose proof (latest_ge (now w) fs). lia.
  - intros i f Hi.
    assert ((returns <$> fs) !! i = Some (returns f)) as Hr
      by (by rewrite list_lookup_fmap, Hi).
    rewrite Hok, list_lookup_fmap in Hr.
    destruct (vs !! i) as [v|]; simpl in Hr; [|done].
    injection Hr as Hr. exists v. by rewrite <-Hr.
  - intros out Hout. rewrite (Sequence_all_ok fs vs w Hok) in Hout.
    injection Hout as <-. apply Forall_forall. intros f Hf.
    destruct (list_elem_of_lookup_1 _ _ Hf) as [i Hi].
    assert ((returns <$> fs) !! i = Some (returns f)) as Hr
      by (by rewrite list_lookup_fmap, Hi).
    rewrite Hok, list_lookup_fmap in Hr.
    destruct (vs !! i) as [v|]; simpl in Hr; [|done].
    injection Hr as Hr. symmetry in Hr.
    destruct (returns_outcome f _ Hr) as (wf & Ho & Hc).
    unfold awaited_by. cbn [outcome]. rewrite Ho. cbn [now].
    by apply (latest_closed _ fs f).
  - task_unfold. rewrite (Sequence_all_ok _ [1%Z; 2%Z; 3%Z]) by done.
    erewrite Get_settled by done. task_simpl.
    unfold latest, closed_at. cbn [foldl outcome fmap option_fmap option_map default snd now].
    unfold id. by rewrite !Nat.max_id, world_eta.
Qed.

Lemma Sequence_ordered_witness :
  let fs := [@Handle Z (Some ((1%Z, nil), {| now := 30; calls := 0 |}));
             @Handle Z (Some ((2%Z, nil), {| now := 10; calls := 0 |}));
             @Handle Z (Some ((3%Z, nil), {| now := 20; calls := 0 |}))] in
  let w := {| now := 0; calls := 0 |} in
  returns <$> fs = (λ v, Some (v, nil)) <$> [1%Z; 2%Z; 3%Z]
  ∧ (s ← Sequence fs; Get s) w
    = Some ((mk_slice [1%Z; 2%Z; 3%Z], nil), {| now := 30; calls := 0 |}).
Proof.
  split; [reflexivity|].
  apply (Sequence_ordered
           [@Handle Z (Some ((1%Z, nil), {| now := 30; calls := 0 |}));
            @Handle Z (Some ((2%Z, nil), {| now := 10; calls := 0 |}));
            @Handle Z (Some ((3%Z, nil), {| now := 20; calls := 0 |}))]
           [1%Z; 2%Z; 3%Z] {| now := 0; calls := 0 |} eq_refl).
Defined.

(** The goroutine of [Sequence] when the inputs [oks] succeed and the
    next one failed with [e]. *)
Lemma Sequence_first_failure {A} `{Zero A}
    (oks : list (handle A)) (vs : list A) (bad : handle A) (later : list (handle A))
    (v : A) (e : errorString) w :
  returns <$> oks = (λ v, Some (v, nil)) <$> vs →
  returns bad = Some (v, Some e) →
  Sequence (oks ++ bad :: later) w
  = Some (@Handle (slice A)
            (Some ((nil_slice, Some e),
                   {| now := latest (now w) (oks ++ [bad]); calls := 0 |})), w).
Proof.
  intros Hvs Hbad. unfold Sequence, NewFuture. do 3 f_equal.
  rewrite (Sequence_loop_app oks vs _ 0 _ _ Hvs). cbn [Sequence_loop now calls].
  destruct (returns_outcome bad _ Hbad) as (wb & Ho & Hc).
  unfold mbind, Task_bind. rewrite (Get_settled bad _ wb _ Ho). task_simpl.
  unfold mret, Task_ret. do 3 f_equal.
  rewrite latest_app. unfold latest at 2. cbn [foldl]. by rewrite Hc.
Qed.

(** C1, as the code has it: [Sequence] fails with the error of the first
    failing input in argument order and its output is the nil slice, of
    length 0; the output completes once that input and the ones before it
    have completed, and the inputs after it play no part: the loop has
    returned before reaching them.
    [Sequence(Successful(1), Failed(E), Successful(3))] gives [(nil, E)]. *)
Theorem Sequence_short_circuit {A} `{Zero A}
    (oks : list (handle A)) (vs : list A) (bad : handle A) (later : list (handle A))
    (v : A) (e : errorString) (w : world)
    (Hok : returns <$> oks = (λ v, Some (v, nil)) <$> vs)
    (Hbad : returns bad = Some (v, Some e)) :
  (s ← Sequence (oks ++ bad :: later); Get s) w
  = Some ((nil_slice, Some e),
          {| now := latest (now w) (oks ++ [bad]); calls := calls w |})
  ∧ len (@nil_slice A) = 0
  ∧ Sequence (oks ++ bad :: later) w = Sequence (oks ++ [bad]) w
  ∧ (f1 ← Successful 1%Z; f2 ← Failed (Some e); f3 ← Successful 3%Z;
     s ← Sequence [f1; f2; f3]; Get s) w
    = Some ((nil_slice, Some e), w).
Proof.
  split; [|split; [|split]].
  - unfold mbind, Task_bind.
    rewrite (Sequence_first_failure oks vs bad later v e w Hok Hbad).
    erewrite Get_settled by done. task_simpl.
    do 3 f_equal. pose proof (latest_ge (now w) (oks ++ [bad])). lia.
  - done.
  - rewrite (Sequence_first_failure oks vs bad later v e w Hok Hbad).
    by rewrite (Sequence_first_failure oks vs bad [] v e w Hok Hbad).
  - task_unfold.
    match goal with
    | |- context [Sequence [?a; ?b; ?c]] => change [a; b; c] with ([a] ++ b :: [c])
    end.
    rewrite (Sequence_first_failure [_] [1%Z] _ [_] 0%Z e w) by done.
    erewrite Get_settled by done. task_simpl.
    unfold latest, closed_at.
    cbn [app foldl outcome fmap option_fmap option_map default snd now].
    unfold id. by rewrite !Nat.max_id, world_eta.
Qed.

Lemma Sequence_short_circuit_witness :
  let E := ErrorString 7 "future 2 failed" in
  let oks := [@Handle Z (Some ((1%Z, nil), {| now := 5; calls := 0 |}))] in
  let bad := @Handle Z (Some ((0%Z, Some E), {| now := 20; calls := 0 |})) in
  let later := [@Handle Z None] in
  returns <$> oks = (λ v, Some (v, nil)) <$> [1%Z]
  ∧ returns bad = Some (0%Z, Some E)
  ∧ (s ← Sequence (oks ++ bad :: later); Get s) {| now := 0; calls := 0 |}
    = Some ((nil_slice, Some E), {| now := 20; calls := 0 |}).
Proof.
  split; [reflexivity|]. split; [reflexivity|].
  apply (Sequence_short_circuit
           [@Handle Z (Some ((1%Z, nil), {| now := 5; calls := 0 |}))] [1%Z]
           (@Handle Z (Some ((0%Z, Some (ErrorString 7 "future 2 failed")),
                             {| now := 20; calls := 0 |})))
           [@Handle Z None] 0%Z (ErrorString 7 "future 2 failed")
           {| now := 0; calls := 0 |} eq_refl eq_refl).
Defined.

(** C1 as stated fails: with a third input that completes at tick 100 the
    output of [Sequence(Successful(1), Failed(E), third)] is complete at
    tick 0, so the third input was not waited for; the same with a third
    input that never completes. *)
Lemma Sequence_later_input_not_awaited :
  let E := Some (ErrorString 7 "future 2 failed") in
  let w0 := {| now := 0; calls := 0 |} in
  ∃ (f3 f3' : handle Z) (out out' : handle (slice Z)),
    (f1 ← Successful 1%Z; f2 ← Failed E;
     f3 ← NewFuture (Sleep 100;; mret (3%Z, nil));
     out ← Sequence [f1; f2; f3]; mret (f3, out)) w0 = Some ((f3, out), w0)
    ∧ outcome out = Some ((nil_slice, E), w0)
    ∧ outcome f3 = Some ((3%Z, nil), {| now := 100; calls := 0 |})
    ∧ ¬ awaited_by f3 out
    ∧ (f1 ← Successful 1%Z; f2 ← Failed E; f3 ← NewFuture block;
       out ← Sequence [f1; f2; f3]; mret (f3, out)) w0 = Some ((f3', out'), w0)
    ∧ outcome out' = Some ((nil_slice, E), w0)
    ∧ outcome f3' = None
    ∧ ¬ awaited_by f3' out'.
Proof.
  simpl. eexists _, _, _, _.
  split; [reflexivity|]. split; [reflexivity|]. split; [reflexivity|].
  split; [unfold awaited_by; simpl; lia|].
  split; [reflexivity|]. split; [reflexivity|]. split; [reflexivity|].
  unfold awaited_by; simpl. tauto.
Qed.

End AsyncFacts.

(** ** Theorems: completion, timeouts, resolved handles *)

Module HandleFacts.
Import FutureCell CellInv FutureCellFacts Async AsyncFacts.
Local Open Scope nat_scope.

(** C3: in every run of a handle with any callers under any schedule, the
    [done] flag starts [false], goes from [false] to [true] at most once
    and never back, and has done so exactly once in a run that ends with
    it set; the step that sets it is line 27, which finds [value] and
    [err] already holding what the computation returned; once it is set,
    [value], [err] and [done] never change again; every call that returned
    without timing out, [Get] or [GetWithTimeout], by whichever caller,
    returned that same pair; and when the computation returns the flag
    does get set.  (The mutex and the channel are not data fields: line 28
    unlocks and line 29 closes after the flag is set, and readers lock and
    unlock later.) *)
Theorem single_completion {A} `{Zero A} (compute : option (A * error)) (hp : nat)
    (todos : list (list call)) (evs : list event) :
  let s0 := FutureCell.NewFuture hp todos in
  let tr := trace compute evs s0 in
  done (cell s0) = false
  ∧ rises (done_flags tr) ≤ 1
  ∧ falls (done_flags tr) = 0
  ∧ (done (cell (run compute evs s0)) = true → rises (done_flags tr) = 1)
  ∧ (∀ i s s', tr !! i = Some s → tr !! S i = Some s' →
       done (cell s) = false → done (cell s') = true →
       w_pc (go s) = W_set_done
       ∧ compute = Some (value (cell s), err (cell s))
       ∧ value (cell s') = value (cell s) ∧ err (cell s') = err (cell s))
  ∧ (∀ i j s s', i ≤ j → tr !! i = Some s → tr !! j = Some s' →
       done (cell s) = true →
       value (cell s') = value (cell s) ∧ err (cell s') = err (cell s)
       ∧ done (cell s') = true)
  ∧ (∀ s c a, s ∈ tr → c ∈ callers s → a ∈ c_returned c → timed_out a = false →
       done (cell s) = true
       ∧ got a = (value (cell s), err (cell s))
       ∧ compute = Some (got a))
  ∧ (is_Some compute →
       done (cell (run compute (replicate 7 Worker) s0)) = true).
Proof.
  intros s0 tr.
  pose proof (Inv_init compute hp todos) as HI0. fold s0 in HI0.
  pose proof (trace_inv compute hp evs s0 HI0) as Htr. fold tr in Htr.
  pose proof (trace_rises compute hp evs s0 HI0) as [Hr Hf]. fold tr in Hr, Hf.
  assert (∀ i s, tr !! i = Some s → Inv compute hp s) as Hinv.
  { intros i s Hi. eapply Forall_lookup_1; eauto. }
  split; [done|]. split; [done|]. split; [done|].
  split.
  { intros Hd. apply Nat.le_antisymm; [done|]. apply rises_reach.
    - unfold done_flags, tr. destruct (trace_head compute evs s0) as [rest ->]. done.
    - unfold done_flags, tr. rewrite fmap_last, trace_last. simpl. by rewrite Hd. }
  split.
  { intros i s s' Hi HS Hd Hd'.
    destruct (trace_succ compute evs s0 i s s' Hi HS) as [ev ->].
    by destruct (next_done_rise compute hp ev s (Hinv _ _ Hi) Hd Hd')
      as (_ & ? & ? & ? & ?). }
  split.
  { intros i j s s' Hle Hi Hj Hd.
    destruct (trace_later compute evs s0 i j s s' Hle Hi Hj) as [evs' Hin].
    pose proof (trace_done_stable compute hp evs' s (Hinv _ _ Hi) Hd) as Hst.
    rewrite Forall_forall in Hst. exact (Hst s' Hin). }
  split.
  { intros s c a Hs Hc Ha Ht. rewrite Forall_forall in Htr.
    destruct (completed_cell compute hp s c a (Htr s Hs) Hc Ha Ht) as [? ?].
    repeat split; try done.
    by apply (answer_completed compute hp s c a (Htr s Hs)). }
  intros Hsome.
  destruct (worker_runs compute hp 7 s0 HI0 Hsome) as (Hst & _).
  pose proof (run_inv compute hp (replicate 7 Worker) s0 HI0)
    as ((_ & _ & Hd & _) & _).
  rewrite Hd, Hst. simpl. done.
Qed.

Lemma next_timer {A} `{Zero A} (compute : option (A * error))
    (s : config A) (i : nat) (c : caller A) :
  callers s !! i = Some c → c_pc c = GWT_select →
  next compute (Timer i) s
  = {| cell := cell s; go := go s;
       callers := <[i := at_pc GWT_errorf c]> (callers s);
       heap_next := heap_next s |}.
Proof.
  intros Hi Hpc. unfold next. cbn [step]. rewrite Hi. cbn [mbind option_bind].
  unfold caller_timer. by rewrite Hpc.
Qed.

Lemma next_caller {A} `{Zero A} (compute : option (A * error))
    (s : config A) (i : nat) (c c' : caller A) f hp :
  callers s !! i = Some c →
  caller_step (cell s) (heap_next s) c = Some (f, hp, c') →
  next compute (Caller i) s
  = {| cell := f; go := go s; callers := <[i := c']> (callers s); heap_next := hp |}.
Proof.
  intros Hi Hst. unfold next. cbn [step]. rewrite Hi. cbn [mbind option_bind].
  by rewrite Hst.
Qed.

(** The three steps of the second case of the [select], lines 91-92. *)
Lemma timeout_steps {A} `{Zero A} (compute : option (A * error))
    (s : config A) (i : nat) (c : caller A) :
  callers s !! i = Some c → c_pc c = GWT_select →
  run compute [Timer i; Caller i; Caller i] s
  = {| cell := cell s; go := go s;
       callers :=
         <[i := {| c_pc := Idle; c_todo := c_todo c; c_value := zero;
                   c_err := Some (ErrorString (heap_next s) timeout_msg);
                   c_returned :=
                     c_returned c
                     ++ [{| from := GetWithTimeout; timed_out := true;
                            got := (zero, Some (ErrorString (heap_next s) timeout_msg)) |}]
                |}]> (callers s);
       heap_next := S (heap_next s) |}.
Proof.
  intros Hi Hpc. assert (i < length (callers s)) as Hlt by by eapply lookup_lt_Some.
  rewrite !run_cons.
  rewrite (next_timer compute s i c) by done.
  set (s1 := {| cell := cell s; go := go s;
                callers := <[i := at_pc GWT_errorf c]> (callers s);
                heap_next := heap_next s |}).
  erewrite (next_caller compute s1 i (at_pc GWT_errorf c));
    [|by apply list_lookup_insert_eq|reflexivity].
  erewrite next_caller;
    [|cbn [callers]; apply list_lookup_insert_eq; subst s1; cbn [callers];
      by rewrite length_insert
     |reflexivity].
  subst s1.
  cbn [callers cell go heap_next FutureCell.run foldl at_pc c_pc c_todo c_value
       c_err c_returned].
  by rewrite !list_insert_insert_eq.
Qed.

(** C2: a caller is in the [select] of [GetWithTimeout] and the timer
    fires while the channel is still open.  The call returns the zero value
    with a newly allocated error that says "timeout waiting for future";
    the first case of the [select] could not have been taken; that error
    is not the one the computation returns and is not in the struct, then
    or ever after; the steps leave the struct and its goroutine as they
    were; every later [Get] on the handle returns what
    the computation returned; and when the computation returns, the calls
    still to come do return. *)
Theorem GetWithTimeout_timeout {A} `{Zero A} (compute : option (A * error)) (hp : nat)
    (todos : list (list FutureCell.call)) (evs : list event) (i : nat) (c : caller A)
    (Halloc : match compute with Some (_, Some e) => addr e < hp | _ => True end)
    (Hi : callers (run compute evs (FutureCell.NewFuture hp todos)) !! i = Some c)
    (Hpc : c_pc c = GWT_select)
    (Hopen : waitChan (cell (run compute evs (FutureCell.NewFuture hp todos))) = Open) :
  let s := run compute evs (FutureCell.NewFuture hp todos) in
  let timeout_err := Some (ErrorString (heap_next s) timeout_msg) in
  let s' := run compute [Timer i; Caller i; Caller i] s in
  callers s'
  = <[i := {| c_pc := Idle; c_todo := c_todo c; c_value := zero; c_err := timeout_err;
              c_returned :=
                c_returned c
                ++ [{| from := GetWithTimeout; timed_out := true;
                       got := (zero, timeout_err) |}] |}]> (callers s)
  ∧ step compute (Caller i) s = None
  ∧ cell s' = cell s
  ∧ go s' = go s
  ∧ (∀ r, compute = Some r → r.2 ≠ timeout_err)
  ∧ (∀ evs',
       let s'' := run compute evs' s' in
       err (cell s'') ≠ timeout_err
       ∧ ∀ c' a, c' ∈ callers s'' → a ∈ c_returned c' → from a = FutureCell.Get →
           timed_out a = false
           ∧ compute = Some (got a)
           ∧ got a = (value (cell s''), err (cell s'')))
  ∧ (is_Some compute →
       ∃ evs', Forall2 (λ c c', finished c' ∧ history c' = history c ++ pending c)
                 (callers s') (callers (run compute evs' s'))).
Proof.
  intros s timeout_err s'.
  assert (Inv compute hp s) as HI by apply run_inv, Inv_init.
  assert (Inv compute hp s') as HI' by by apply run_inv.
  pose proof (timeout_steps compute s i c Hi Hpc) as Hs'. fold s' in Hs'.
  assert (hp ≤ heap_next s) as Hhp by apply HI.
  split; [by rewrite Hs'|].
  split.
  { fold s in Hi, Hopen. cbn [step]. rewrite Hi. cbn [mbind option_bind].
    unfold caller_step. by rewrite Hpc, Hopen. }
  split; [by rewrite Hs'|]. split; [by rewrite Hs'|].
  split.
  { intros [v e] -> Heq. simpl in Heq. unfold timeout_err in Heq. rewrite Heq in Halloc.
    simpl in Halloc. lia. }
  split.
  { intros evs' s''.
    assert (Inv compute hp s'') as HI'' by by apply run_inv.
    split; [by apply (cell_err_old compute hp s'' _ _ HI'' Halloc)|].
    intros c' a Hc' Ha Hfrom.
    destruct (timed_out a) eqn:Ht.
    { destruct (answer_timed_out compute hp s'' c' a HI'' Hc' Ha Ht) as [Hf _].
      congruence. }
    destruct (completed_cell compute hp s'' c' a HI'' Hc' Ha Ht) as [_ Hgot].
    repeat split; try done.
    by apply (answer_completed compute hp s'' c' a HI''). }
  intros Hr. destruct (completion compute hp s' HI' Hr) as (evs' & _ & Hall).
  by exists evs'.
Qed.

Lemma GetWithTimeout_timeout_witness :
  let compute : option (Z * error) := Some (0%Z, Some (ErrorString 3 "computation failed")) in
  let c : caller Z :=
    {| c_pc := GWT_select; c_todo := [FutureCell.Get]; c_value := 0%Z; c_err := nil;
       c_returned := [] |} in
  let s := run compute [Caller 0] (FutureCell.NewFuture 4 [[GetWithTimeout; FutureCell.Get]]) in
  3 < 4
  ∧ callers s !! 0 = Some c
  ∧ c_pc c = GWT_select
  ∧ waitChan (cell s) = Open
  ∧ cell (run compute [Timer 0; Caller 0; Caller 0] s) = cell s.
Proof.
  split; [lia|]. split; [reflexivity|]. split; [reflexivity|]. split; [reflexivity|].
  apply (GetWithTimeout_timeout
           (Some (0%Z, Some (ErrorString 3 "computation failed"))) 4
           [[GetWithTimeout; FutureCell.Get]] [Caller 0] 0
           {| c_pc := GWT_select; c_todo := [FutureCell.Get]; c_value := 0%Z; c_err := nil;
              c_returned := [] |}
           ltac:(simpl; lia) eq_refl eq_refl eq_refl).
Defined.

(** The run of the test "timeout exceeded" followed by a [Get]: the
    caller times out, the goroutine finishes, the [Get] returns the
    computation's pair. *)
Example timeout_then_Get :
  let compute : option (Z * error) := Some (42%Z, nil) in
  let s := run compute
             ([Caller 0; Timer 0; Caller 0; Caller 0]
              ++ replicate 7 Worker ++ replicate 7 (Caller 0))
             (FutureCell.NewFuture 0 [[GetWithTimeout; FutureCell.Get]]) in
  (c_returned <$> callers s)
  = [[ {| from := GetWithTimeout; timed_out := true;
          got := (0%Z, Some (ErrorString 0 timeout_msg)) |};
       {| from := FutureCell.Get; timed_out := false; got := (42%Z, nil) |} ]]
  ∧ err (cell s) = nil ∧ value (cell s) = 42%Z.
Proof. repeat split. Qed.

Lemma repeat_Get_settled {A} `{Zero A} (f : handle A) r wf n w :
  outcome f = Some (r, wf) → now wf ≤ now w →
  repeat_Get n f w = Some (replicate n r, w).
Proof.
  intros Ho Hle. induction n as [|n IH]; [done|].
  cbn [repeat_Get replicate]. unfold mbind, Task_bind.
  rewrite (Get_settled f r wf w Ho).
  replace (now w `max` now wf) with (now w) by lia. rewrite world_eta, IH. done.
Qed.

(** C8: [Successful(v).Get()] returns [(v, nil)]: [n] times in a row for
    every [n], at any later moment, and from any number of goroutines
    calling it any number of times under any schedule, where every call
    does return under some continuation of the schedule; [Successful] and
    [Failed] are [NewFuture] on a computation that returns at once. *)
Theorem Successful_resolved {A} `{Zero A} (v : A) (w : world) (hp : nat)
    (todos : list (list FutureCell.call)) (evs : list event) :
  let f := @Handle A (Some ((v, nil), {| now := now w; calls := 0 |})) in
  let s := run (returns f) evs (FutureCell.NewFuture hp todos) in
  Successful v w = Some (f, w)
  ∧ (∀ n, (f ← Successful v; repeat_Get n f) w = Some (replicate n (v, nil), w))
  ∧ (∀ w', Get f w'
           = Some ((v, nil), {| now := now w' `max` now w; calls := calls w' |}))
  ∧ returns f = Some (v, nil)
  ∧ (∀ c a, c ∈ callers s → a ∈ c_returned c → from a = FutureCell.Get →
       got a = (v, nil))
  ∧ (∃ evs', Forall2 (λ todo c, finished c ∧ history c = todo) todos
               (callers (run (returns f) (evs ++ evs') (FutureCell.NewFuture hp todos))))
  ∧ Successful v = Async.NewFuture (mret (v, nil))
  ∧ (∀ e, Failed (A := A) e = Async.NewFuture (mret (zero, e))).
Proof.
  intros f s.
  split; [done|]. split.
  { intros n. task_unfold. fold f. by apply (repeat_Get_settled f _ _ n w eq_refl). }
  split.
  { intros w'. exact (Get_settled f (v, nil) {| now := now w; calls := 0 |} w' eq_refl). }
  split; [done|]. split.
  { intros c a Hc Ha Hfrom.
    assert (Inv (returns f) hp s) as HI by apply run_inv, Inv_init.
    destruct (timed_out a) eqn:Ht.
    { destruct (answer_timed_out _ hp s c a HI Hc Ha Ht) as [Hf _]. congruence. }
    pose proof (answer_completed _ hp s c a HI Hc Ha Ht) as Hgot.
    by injection Hgot as <-. }
  split; [|done].
  by apply all_calls_return.
Qed.

(** Ten goroutines call [Get] on a handle that resolves to 42, as in the
    test of concurrent access, here scheduled round-robin. *)
Example ten_readers :
  let rr := concat (replicate 12 (Worker :: (Caller <$> seq 0 10))) in
  (c_returned <$>
     callers (run (Some (42%Z, nil)) rr
                (FutureCell.NewFuture 0 (replicate 10 [FutureCell.Get]))))
  = replicate 10 [{| from := FutureCell.Get; timed_out := false; got := (42%Z, nil) |}].
Proof. vm_compute. reflexivity. Qed.

End HandleFacts.

(** ** More on one handle: locks, progress, bounds *)

Module CellExtra.
Import FutureCell CellInv FutureCellFacts.
Local Open Scope nat_scope.

Section Steps.
Context {A : Type} `{Zero A}.
Variable compute : option (A * error).

#[local] Abbreviation config := (config A).
#[local] Abbreviation caller := (caller A).
#[local] Abbreviation step := (step compute).
#[local] Abbreviation next := (next compute).
#[local] Abbreviation run := (run compute).









End Steps.


(** X2: No fatal runtime error is reachable.  When the goroutine stands at
    [Unlock] it holds the write lock; when it stands at [close] the channel
    is open; a caller between [RLock] and [RUnlock] is counted in the mutex
    and got there after the channel was closed; the write lock is only
    held while the channel is open and with no reader inside; the reader
    count is exactly the number of callers inside. *)
Theorem no_fatal_error {A} `{Zero A} (compute : option (A * error)) (hp : nat)
    (todos : list (list call)) (evs : list event) :
  let s := run compute evs (FutureCell.NewFuture hp todos) in
  (w_pc (go s) = W_unlock → writer (mutex (cell s)) = true)
  ∧ (w_pc (go s) = W_close → waitChan (cell s) = Open)
  ∧ (∀ c, c ∈ callers s → holds_rlock (c_pc c) = true →
       0 < readers (mutex (cell s)) ∧ waitChan (cell s) = Closed)
  ∧ (writer (mutex (cell s)) = true →
       readers (mutex (cell s)) = 0 ∧ waitChan (cell s) = Open)
  ∧ readers (mutex (cell s)) = held (callers s).
Proof.
  intros s.
  assert (Inv compute hp s) as ((Hv & He & Hd & Hwr & Hcl & Hcomp & Hrd) & Hc & _ & Hrs)
    by apply run_inv, Inv_init.
  split; [|split; [|split; [|split]]]; [| | | |done].
  - intros Hpc. rewrite Hwr, Hpc. done.
  - intros Hpc. rewrite Hpc in Hcl. by destruct (waitChan (cell s)).
  - intros c Hin Hh. split.
    + destruct (list_elem_of_lookup_1 _ _ Hin) as [i Hi].
      pose proof (held_ge (callers s) i c Hi) as Hge. unfold holding in Hge.
      rewrite Hh in Hge. lia.
    + rewrite Forall_forall in Hc. destruct (Hc c Hin) as [Hpc _].
      unfold pc_inv in Hpc. destruct (c_pc c); simpl in Hh; try done; tauto.
  - intros Hw. rewrite Hw in Hwr. symmetry in Hwr.
    apply andb_true_iff in Hwr as [_ Hle]. apply Nat.leb_le in Hle.
    split; [apply Hrd; lia|].
    replace (7 <=? stage (w_pc (go s))) with false in Hcl
      by (symmetry; apply Nat.leb_gt; lia).
    by destruct (waitChan (cell s)).
Qed.

Lemma idle_or_busy {A} (l : list (caller A)) :
  Forall (λ c, measure c = 0) l ∨ ∃ i c, l !! i = Some c ∧ 0 < measure c.
Proof.
  induction l as [|c l [IH|(i & c' & Hi & Hm)]].
  - left. constructor.
  - destruct (decide (measure c = 0)) as [H0|Hpos].
    + left. by constructor.
    + right. exists 0, c. split; [done|lia].
  - right. by exists (S i), c'.
Qed.

(** X3: When the computation returns there is no deadlock: in every
    reachable configuration either the goroutine of [NewFuture] has exited
    and every caller has returned from all its calls, or the goroutine or
    some caller can take a step (no timer needed). *)
Theorem no_deadlock {A} `{Zero A} (r : A * error) (hp : nat)
    (todos : list (list call)) (evs : list event) :
  let s := run (Some r) evs (FutureCell.NewFuture hp todos) in
  (w_pc (go s) = W_exit ∧ Forall finished (callers s))
  ∨ is_Some (step (Some r) Worker s)
  ∨ ∃ i, is_Some (step (Some r) (Caller i) s).
Proof.
  intros s.
  assert (Inv (Some r) hp s) as HI by apply run_inv, Inv_init.
  destruct (decide (stage (w_pc (go s)) < 7)) as [Hlt|Hge].
  { right. left.
    destruct (worker_progress (Some r) hp s HI (mk_is_Some _ _ eq_refl) Hlt)
      as (s' & Hs & _).
    by rewrite Hs. }
  assert (w_pc (go s) = W_exit) as Hexit
    by (destruct (w_pc (go s)); simpl in Hge; try lia; done).
  assert (waitChan (cell s) = Closed) as Hcl.
  { destruct HI as ((_ & _ & _ & _ & Hc & _) & _). rewrite Hexit in Hc.
    by destruct (waitChan (cell s)). }
  destruct (idle_or_busy (callers s)) as [Hall|(i & c & Hi & Hm)].
  - left. split; [done|]. eapply Forall_impl; [exact Hall|].
    intros c. apply measure_0.
  - right. right. exists i.
    destruct (caller_progress (Some r) hp s i c HI Hcl Hi Hm) as (s' & c' & Hs & _).
    by rewrite Hs.
Qed.

(** X4: A computation that never returns leaves the struct exactly as
    [NewFuture] made it, for ever; its goroutine never gets past line 23;
    no [Get] ever returns (a caller in [Get] stays blocked on the channel),
    and all a call can return is the timeout of [GetWithTimeout]. *)
Theorem never_returning {A} `{Zero A} (hp : nat)
    (todos : list (list call)) (evs : list event) :
  let s := run (None : option (A * error)) evs (FutureCell.NewFuture hp todos) in
  cell s = new_Future
  ∧ w_pc (go s) = W_compute
  ∧ step None Worker s = None
  ∧ (∀ c a, c ∈ callers s → a ∈ c_returned c →
       from a = GetWithTimeout ∧ timed_out a = true)
  ∧ (∀ i c, callers s !! i = Some c → c_pc c = Get_recv →
       step None (Caller i) s = None).
Proof.
  intros s.
  assert (Inv None hp s) as HI by apply run_inv, Inv_init.
  pose proof HI as ((Hv & He & Hd & Hwr & Hcl & Hcomp & Hrd) & Hc & _ & _).
  assert (w_pc (go s) = W_compute) as Hpc.
  { destruct (w_pc (go s)); simpl in Hcomp; try done;
      by (assert (1 ≤ 1) as Hx by lia; discriminate Hcomp; lia). }
  rewrite Hpc in *. simpl in *.
  assert (cell s = new_Future) as Hcell.
  { specialize (Hrd ltac:(lia)).
    destruct (cell s) as [v e d [wr rd] ch]. simpl in *. subst.
    by destruct ch. }
  split; [done|]. split; [done|]. split.
  { unfold worker_step. by rewrite Hpc. }
  split.
  - intros c a Hin Ha. destruct (timed_out a) eqn:Ht.
    + by destruct (answer_timed_out None hp s c a HI Hin Ha Ht).
    + by pose proof (answer_completed None hp s c a HI Hin Ha Ht).
  - intros i c Hi Hrecv. rewrite Hi. simpl. unfold caller_step.
    by rewrite Hrecv, Hcell.
Qed.

(** The calls a caller has returned from are, in order, the first ones
    of the calls it was to make, and the call it is in and the ones still
    to come are the rest: under no schedule is a call skipped, repeated or
    answered out of order. *)
Lemma calls_in_order {A} `{Zero A} (compute : option (A * error)) (hp : nat)
    (todos : list (list call)) (evs : list event) :
  (λ c, history c ++ pending c)
    <$> callers (run compute evs (FutureCell.NewFuture hp todos))
  = todos.
Proof.
  pose proof (run_script compute evs (FutureCell.NewFuture hp todos)) as Hr.
  rewrite (init_script hp todos) in Hr. exact Hr.
Qed.

Section Fresh.
Context {A : Type} `{Zero A}.
Variable compute : option (A * error).

#[local] Abbreviation config := (config A).
#[local] Abbreviation caller := (caller A).

Lemma bind_insert (f : caller → list nat) (l : list caller) i c :
  l !! i = Some c →
  ∃ l1 l2, l ≫= f = l1 ++ f c ++ l2
           ∧ ∀ c', <[i := c']> l ≫= f = l1 ++ f c' ++ l2.
Proof.
  revert i. induction l as [|x l IH]; intros [|i] Hi; simplify_eq/=.
  - exists [], (l ≫= f). done.
  - destruct (IH i Hi) as (l1 & l2 & Hl & Hins).
    exists (f x ++ l1), l2. rewrite Hl. split; [by rewrite <-app_assoc|].
    intros c'. by rewrite Hins, <-app_assoc.
Qed.

Lemma caller_step_addrs (f : Future A) hp c f' hp' c' :
  caller_step f hp c = Some (f', hp', c') →
  (timeout_addrs c' = timeout_addrs c ∧ hp' = hp)
  ∨ (timeout_addrs c' = timeout_addrs c ++ [hp] ∧ hp' = S hp).
Proof.
  unfold caller_step, rlock, runlock. intros Hst.
  destruct (c_pc c) eqn:Hp; simpl in Hst; repeat case_match; simplify_eq;
    unfold timeout_addrs; rewrite ?Hp; simpl;
    rewrite ?bind_app; simpl; rewrite ?app_nil_r;
    try (by left); try (by right).
  left. split; [|done].
  match goal with |- context [entry ?k] => destruct k; simpl; by rewrite app_nil_r end.
Qed.

Lemma fresh_step ev s s' :
  step compute ev s = Some s' → fresh_inv s → fresh_inv s'.
Proof.
  unfold fresh_inv, all_timeout_addrs. destruct ev as [|i|i]; simpl; intros Hst [Hnd Hlt].
  - destruct (worker_step compute (cell s) (go s)) as [[f w]|] eqn:E; by simplify_eq/=.
  - destruct (callers s !! i) as [c|] eqn:Ei; simplify_eq/=.
    destruct (caller_step (cell s) (heap_next s) c) as [[[f hp] c']|] eqn:E; simplify_eq/=.
    destruct (bind_insert timeout_addrs (callers s) i c Ei) as (l1 & l2 & Hl & Hins).
    rewrite Hins. rewrite Hl in Hnd, Hlt.
    destruct (caller_step_addrs _ _ _ _ _ _ E) as [[-> ->]|[-> ->]]; [done|].
    assert (l1 ++ (timeout_addrs c ++ [heap_next s]) ++ l2
            ≡ₚ heap_next s :: (l1 ++ timeout_addrs c ++ l2)) as Hperm.
    { rewrite <-(assoc_L (++) (timeout_addrs c)).
      rewrite (Permutation_app_comm [heap_next s] l2).
      rewrite !(assoc_L (++)). by rewrite <-Permutation_cons_append. }
    rewrite Hperm. split.
    + apply NoDup_cons. split; [|done]. intros Hin.
      rewrite Forall_forall in Hlt. specialize (Hlt _ Hin). lia.
    + constructor; [lia|]. eapply Forall_impl; [exact Hlt|]. simpl. lia.
  - destruct (callers s !! i) as [c|] eqn:Ei; simplify_eq/=.
    destruct (caller_timer c) as [c'|] eqn:E; simplify_eq/=.
    destruct (bind_insert timeout_addrs (callers s) i c Ei) as (l1 & l2 & Hl & Hins).
    rewrite Hins. rewrite Hl in Hnd, Hlt.
    unfold caller_timer in E. destruct (c_pc c) eqn:Hp; simplify_eq.
    unfold timeout_addrs in *. rewrite Hp in Hnd, Hlt. simpl. done.
Qed.

Lemma fresh_run evs s : fresh_inv s → fresh_inv (run compute evs s).
Proof.
  revert s. induction evs as [|ev evs IH]; intros s Hs; [done|].
  rewrite run_cons. apply IH. unfold next.
  destruct (step compute ev s) eqn:E; simpl; eauto using fresh_step.
Qed.

Lemma fresh_init hp todos : fresh_inv (FutureCell.NewFuture (A := A) hp todos).
Proof.
  assert (all_timeout_addrs (FutureCell.NewFuture (A := A) hp todos) = []) as Hnil.
  { unfold all_timeout_addrs. simpl.
    induction todos as [|todo todos IH]; [done|]. by rewrite fmap_cons. }
  unfold fresh_inv. rewrite Hnil. split; constructor.
Qed.

End Fresh.

(** X5: Every call that timed out returned the zero value with an error
    that says "timeout waiting for future" and lives at an address handed
    out after [NewFuture] and to no other timed-out call: the timeout
    errors of a run are pairwise different values, not one shared
    sentinel. *)
Theorem timeout_errors_distinct {A} `{Zero A} (compute : option (A * error)) (hp : nat)
    (todos : list (list call)) (evs : list event) :
  let s := run compute evs (FutureCell.NewFuture hp todos) in
  NoDup (all_timeout_addrs s)
  ∧ (∀ c a, c ∈ callers s → a ∈ c_returned c → timed_out a = true →
       ∃ n, got a = (zero, Some (ErrorString n timeout_msg))
            ∧ hp ≤ n < heap_next s
            ∧ n ∈ all_timeout_addrs s).
Proof.
  intros s.
  assert (Inv compute hp s) as HI by apply run_inv, Inv_init.
  destruct (fresh_run compute evs _ (fresh_init hp todos)) as [Hnd _]. fold s in Hnd.
  split; [done|]. intros c a Hc Ha Ht.
  destruct (answer_timed_out compute hp s c a HI Hc Ha Ht) as (_ & Hz & n & Hn & He).
  exists n. destruct (got a) as [v e] eqn:Hg. simpl in Hz, He. subst.
  split; [done|]. split; [done|].
  unfold all_timeout_addrs. apply list_elem_of_bind. exists c. split; [|done].
  unfold timeout_addrs. apply elem_of_app. left.
  apply list_elem_of_bind. exists a. split; [|done].
  unfold answer_addr. rewrite Ht, Hg. simpl. by apply list_elem_of_singleton.
Qed.

End CellExtra.

(** ** More on the combinators and on safe.go *)

Module AsyncExtra.
Import FutureCell Async AsyncExt AsyncFacts.
Import HandleFacts.
Local Open Scope nat_scope.

(** [Map] with a function that only computes. *)
Lemma Map_pure_outcome {A B} `{Zero A} `{Zero B} (f : handle A) (g : A → B) w :
  Map f (λ x, mret (g x)) w
  = Some (@Handle B
            match outcome f with
            | None => None
            | Some ((v, Some e), wf) =>
                Some ((zero, Some e), {| now := now w `max` now wf; calls := 0 |})
            | Some ((v, None), wf) =>
                Some ((g v, nil), {| now := now w `max` now wf; calls := 1 |})
            end, w).
Proof.
  rewrite Map_outcome. by destruct (outcome f) as [[[v [e|]] wf]|].
Qed.

(** X10: [Map] composes: mapping [g] and then [h] gives, to whoever calls
    [Get], the same pair at the same time as mapping [h ∘ g] once, for a
    successful, a failed and a never-completing input alike. *)
Theorem Map_compose {A B C} `{Zero A} `{Zero B} `{Zero C}
    (f : handle A) (g : A → B) (h : B → C) (w : world) :
  (m1 ← Map f (λ x, mret (g x)); m2 ← Map m1 (λ y, mret (h y)); Get m2) w
  = (m ← Map f (λ x, mret (h (g x))); Get m) w.
Proof.
  unfold mbind, Task_bind. rewrite !(Map_pure_outcome f). cbv beta iota.
  rewrite Map_pure_outcome. cbn [outcome].
  destruct (outcome f) as [[[v [e|]] wf]|].
  - erewrite !Get_settled by done. cbn [now].
    by replace (now w `max` (now w `max` (now w `max` now wf)))
      with (now w `max` (now w `max` now wf)) by lia.
  - erewrite !Get_settled by done. cbn [now].
    by replace (now w `max` (now w `max` (now w `max` now wf)))
      with (now w `max` (now w `max` now wf)) by lia.
  - by rewrite !Get_never.
Qed.

(** X11: Chaining with a function that resolves at once is mapping:
    [FlatMap(f, x => Successful(g(x)))] is the same handle as
    [Map(f, g)], with the same outcome at the same time. *)
Theorem FlatMap_Successful_is_Map {A B} `{Zero A} `{Zero B}
    (f : handle A) (g : A → B) (w : world) :
  FlatMap f (λ x, Successful (g x)) w = Map f (λ x, mret (g x)) w.
Proof.
  rewrite FlatMap_outcome, Map_pure_outcome. do 3 f_equal.
  destruct (outcome f) as [[[v [e|]] wf]|]; try done.
  unfold Successful, NewFuture. cbn [outcome now calls mret Task_ret].
  by rewrite Nat.max_id.
Qed.

(** X9: [Failed(nil)] is not a failure: it is the same handle as
    [Successful] of the zero value; [Get] gives the zero value with a nil
    error, and [Map] does call its function, on the zero value. *)
Theorem Failed_nil_succeeds {A B} `{Zero A} `{Zero B} (g : A → B) (w : world) :
  Failed (A := A) nil = Successful zero
  ∧ (f ← Failed (A := A) nil; Get f) w = Some ((zero, nil), w)
  ∧ (f ← Failed (A := A) nil; m ← Map f (λ x, mret (g x)); Get m) w
    = Some ((g zero, nil), w)
  ∧ (f ← Failed (A := A) nil; Map f (λ x, mret (g x))) w
    = Some (@Handle B (Some ((g zero, nil), {| now := now w; calls := 1 |})), w).
Proof.
  split; [done|]. split; [|split].
  - task_unfold. erewrite Get_settled by done. task_simpl.
    by rewrite Nat.max_id, world_eta.
  - task_unfold. rewrite (Map_pure_outcome _ g). task_simpl.
    erewrite Get_settled by done. task_simpl. by rewrite !Nat.max_id, world_eta.
  - task_unfold. rewrite (Map_pure_outcome _ g). task_simpl.
    by rewrite !Nat.max_id.
Qed.


(** X12: [Sequence] is stuck on the first input that never completes, when
    the inputs before it succeeded: its output never completes either,
    whatever the inputs after it are, failed ones included. *)
Theorem Sequence_blocked {A} `{Zero A}
    (oks : list (handle A)) (vs : list A) (stuck : handle A) (later : list (handle A))
    (w : world)
    (Hok : returns <$> oks = (λ v, Some (v, nil)) <$> vs)
    (Hstuck : outcome stuck = None) :
  Sequence (oks ++ stuck :: later) w = Some (@Handle (slice A) None, w)
  ∧ (s ← Sequence (oks ++ stuck :: later); Get s) w = None.
Proof.
  assert (Sequence (oks ++ stuck :: later) w = Some (@Handle (slice A) None, w)) as Hs.
  { unfold Sequence, NewFuture. do 3 f_equal.
    rewrite (Sequence_loop_app oks vs _ 0 _ _ Hok). cbn [Sequence_loop].
    unfold mbind, Task_bind. by rewrite Get_never. }
  split; [done|]. unfold mbind, Task_bind. rewrite Hs. by apply Get_never.
Qed.

Lemma Sequence_blocked_witness :
  let oks := [@Handle Z (Some ((1%Z, nil), {| now := 5; calls := 0 |}))] in
  let stuck := @Handle Z None in
  let later := [@Handle Z (Some ((0%Z, Some (ErrorString 7 "failed")),
                                 {| now := 0; calls := 0 |}))] in
  returns <$> oks = (λ v, Some (v, nil)) <$> [1%Z]
  ∧ outcome stuck = None
  ∧ (s ← Sequence (oks ++ stuck :: later); Get s) {| now := 0; calls := 0 |} = None.
Proof.
  split; [reflexivity|]. split; [reflexivity|].
  apply (Sequence_blocked
           [@Handle Z (Some ((1%Z, nil), {| now := 5; calls := 0 |}))] [1%Z]
           (@Handle Z None)
           [@Handle Z (Some ((0%Z, Some (ErrorString 7 "failed")),
                             {| now := 0; calls := 0 |}))]
           {| now := 0; calls := 0 |} eq_refl eq_refl).
Defined.

Lemma Successfuls_handles {A} `{Zero A} (vs : list A) w :
  Successfuls vs w
  = Some ((λ v, @Handle A (Some ((v, nil), {| now := now w; calls := 0 |}))) <$> vs, w).
Proof.
  induction vs as [|v vs IH]; [done|].
  cbn [Successfuls]. task_unfold. fold (Successfuls vs). by rewrite IH.
Qed.

Lemma latest_resolved {A} `{Zero A} (vs : list A) (t : time) :
  latest t ((λ v, @Handle A (Some ((v, nil), {| now := t; calls := 0 |}))) <$> vs) = t.
Proof.
  unfold latest. induction vs as [|v vs IH]; [done|].
  rewrite fmap_cons. cbn [foldl]. unfold closed_at at 2. simpl.
  by rewrite Nat.max_id.
Qed.

(** X13: [Sequence] over handles made by [Successful], one per value of any
    list, gives back exactly that list, in order and with a nil error,
    to a caller that does not have to wait. *)
Theorem Sequence_of_Successful {A} `{Zero A} (vs : list A) (w : world) :
  (fs ← Successfuls vs; s ← Sequence fs; Get s) w = Some ((mk_slice vs, nil), w).
Proof.
  unfold mbind, Task_bind. rewrite Successfuls_handles.
  rewrite (Sequence_all_ok _ vs).
  2:{ rewrite <-list_fmap_compose. apply list_fmap_ext. by intros _ v _. }
  erewrite Get_settled by done. task_simpl.
  by rewrite latest_resolved, Nat.max_id, world_eta.
Qed.

(** The tests "timeout exceeded" (and a [Get] after it), "successful
    completion within timeout" and "immediate timeouts", in milliseconds. *)
Example timeout_exceeded :
  (f ← Async.NewFuture (Sleep 200;; mret (42%Z, nil));
   r1 ← GetWithTimeout f 100 9 true;
   r2 ← Get f; mret (r1, r2)) {| now := 0; calls := 0 |}
  = Some (((0%Z, Some (ErrorString 9 timeout_msg)), (42%Z, nil)),
          {| now := 200; calls := 0 |}).
Proof. reflexivity. Qed.

Example completion_within_timeout :
  (f ← Async.NewFuture (Sleep 50;; mret (42%Z, nil));
   GetWithTimeout f 100 9 false) {| now := 0; calls := 0 |}
  = Some ((42%Z, nil), {| now := 50; calls := 0 |}).
Proof. reflexivity. Qed.

Example immediate_timeout :
  (f ← Async.NewFuture (Sleep 1000;; mret (42%Z, nil));
   GetWithTimeout f 0 9 true) {| now := 0; calls := 0 |}
  = Some ((0%Z, Some (ErrorString 9 timeout_msg)), {| now := 0; calls := 0 |}).
Proof. reflexivity. Qed.


End AsyncExtra.

Module SafeExtra.
Import Safe.

(** The pointer decides the result and the result tells the pointer. *)
Lemma fromNullable_inj {T} (p q : option T) :
  fromNullable p = fromNullable q → p = q.
Proof. destruct p, q; simpl; congruence. Qed.


End SafeExtra.
